(** * Waypoint updater: a shallow embedding of [waypoint_updater.py]

    The node keeps a closed-loop track of waypoints, follows the vehicle's
    position on it, publishes a lookahead window of waypoints after every
    pose message and relays the signed arc-length distance to the next
    traffic light.

    Numbers.  Python's [float] is IEEE-754 binary64, which is the kernel's
    primitive [float]: every arithmetic operation and comparison below is
    the binary64 one, so the definitions evaluate exactly as the Python
    code does.  Python's [int] is unbounded and is modelled by [Z].

    Effects.  A callback reads and updates the attributes of the node
    object, may publish on three topics and may raise.  An exception ends
    the callback (rospy logs it and keeps serving), but the attribute
    updates made before it stay.  This is the monad [M] below.  Calls to
    [rospy.logwarn]/[rospy.loginfo] only write to the log and are left
    out. *)

From Stdlib Require Import String.
From Stdlib Require Import ZArith List Lia Bool Sorted.
From Stdlib Require Import Floats Uint63.
Import ListNotations.

Open Scope Z_scope.

(** ** Python values *)

Inductive exn : Type :=
| IndexError
| ZeroDivisionError
| ValueError
| AttributeError.

Inductive result (A : Type) : Type :=
| Ret (a : A)
| Raise (e : exn).

Arguments Ret {A} a.
Arguments Raise {A} e.

Definition len {A : Type} (l : list A) : Z := Z.of_nat (length l).

(** [l[i]]: a negative index counts from the end, anything outside the
    list raises [IndexError]. *)
Definition py_index {A : Type} (l : list A) (i : Z) : result A :=
  let j := if i <? 0 then i + len l else i in
  if j <? 0 then Raise IndexError
  else match nth_error l (Z.to_nat j) with
       | Some a => Ret a
       | None => Raise IndexError
       end.

(** A slice bound: absent bounds are given by the caller's default,
    negative ones count from the end, and all are clipped to the list. *)
Definition py_bound (n : Z) (dflt : Z) (b : option Z) : Z :=
  match b with
  | None => dflt
  | Some i => if i <? 0 then Z.max (i + n) 0 else Z.min i n
  end.

(** [l[lo:hi]] (step 1): never raises, yields a fresh list. *)
Definition py_slice {A : Type} (l : list A) (lo hi : option Z) : list A :=
  let n := len l in
  let a := py_bound n 0 lo in
  let b := py_bound n n hi in
  firstn (Z.to_nat (b - a)) (skipn (Z.to_nat a) l).

(** [range(a, b)]. *)
Definition py_range (a b : Z) : list Z :=
  map (fun k => a + Z.of_nat k) (seq 0 (Z.to_nat (b - a))).

(** Conversion of an [int] operand in mixed arithmetic (exact below 2^53,
    which covers every integer the node converts: a sign, the constants 0
    and 200, and a list length). *)
Definition float_of_int (i : Z) : float :=
  if i <? 0 then PrimFloat.opp (PrimFloat.of_uint63 (Uint63.of_Z (- i)))
  else PrimFloat.of_uint63 (Uint63.of_Z i).

(** [math.sqrt]: raises [ValueError] on a negative argument, and returns
    nan on nan. *)
Definition py_sqrt (v : float) : result float :=
  if PrimFloat.ltb v 0%float then Raise ValueError
  else Ret (PrimFloat.sqrt v).

(** Float division: raises [ZeroDivisionError] when the divisor is zero
    (of either sign). *)
Definition py_div (a b : float) : result float :=
  if PrimFloat.eqb b 0%float then Raise ZeroDivisionError
  else Ret (PrimFloat.div a b).

Definition rbind {A B : Type} (r : result A) (k : A -> result B) : result B :=
  match r with
  | Ret a => k a
  | Raise e => Raise e
  end.

(** ** Messages *)

(** geometry_msgs/Point *)
Record Point : Type := mkPoint { x : float; y : float; z : float }.

(** geometry_msgs/Quaternion *)
Record Quaternion : Type :=
  mkQuaternion { qx : float; qy : float; qz : float; qw : float }.

(** geometry_msgs/Pose *)
Record Pose : Type := mkPose { position : Point; orientation : Quaternion }.

(** geometry_msgs/PoseStamped; of the header only [seq] is read for more
    than the log. *)
Record PoseStamped : Type := mkPoseStamped { seq : Z; pose : Pose }.

(** styx_msgs/Waypoint; of the twist only [twist.twist.linear.x] has an
    accessor in the node. *)
Record Waypoint : Type :=
  mkWaypoint { wp_pose : PoseStamped; twist_linear_x : float }.

(** styx_msgs/Lane *)
Record Lane : Type := mkLane { frame_id : string; waypoints : list Waypoint }.

(** What the node publishes: [final_waypoints], [next_waypoint] and
    [tl_distance]. *)
Inductive Output : Type :=
| FinalWaypoints (lane : Lane)
| NextWaypoint (i : Z)
| TlDistance (d : float).

Definition LOOKAHEAD_WPS : Z := 240.

(** ** Geometry *)

Definition point_dist_sq (a b : Point) : float :=
  let dx := (x a - x b)%float in
  let dy := (y a - y b)%float in
  let dz := (z a - z b)%float in
  (dx * dx + dy * dy + dz * dz)%float.

(** [math.sqrt] is modelled with its domain error; [point_dist_returns]
    below shows that the error cannot occur on a sum of squares. *)
Definition point_dist (a b : Point) : result float :=
  py_sqrt (point_dist_sq a b).

Definition waypoint_to_point (wp : Waypoint) : Point :=
  position (pose (wp_pose wp)).

Definition pose_to_point (p : PoseStamped) : Point :=
  position (pose p).

Definition waypoints_to_vec (a b : Point) : float * float :=
  ((x b - x a)%float, (y b - y a)%float).

Definition dot_prod (a b : float * float) : float :=
  (fst a * fst b + snd a * snd b)%float.

(** The vector [bc] of the source is computed and never used. *)
Definition line_ratio (a b c : Point) : result float :=
  let ac := waypoints_to_vec a c in
  let ab := waypoints_to_vec a b in
  let da := dot_prod ab ac in
  rbind (point_dist a c) (fun ac_dist => py_div da ac_dist).

(** ** The node object *)

(** The attributes of [WaypointUpdater].  [avg_wp_dist] is not set by
    [__init__]: it exists only once [waypoints_cb] has assigned it. *)
Record Node : Type := mkNode {
  wps : list Waypoint;
  wp_ss : list float;
  prev_pt : Point;
  prev_index : Z;
  next_pt : Z;
  avg_wp_dist : option float
}.

Definition set_wps (v : list Waypoint) (s : Node) : Node :=
  mkNode v (wp_ss s) (prev_pt s) (prev_index s) (next_pt s) (avg_wp_dist s).

Definition set_wp_ss (v : list float) (s : Node) : Node :=
  mkNode (wps s) v (prev_pt s) (prev_index s) (next_pt s) (avg_wp_dist s).

Definition set_prev_pt (v : Point) (s : Node) : Node :=
  mkNode (wps s) (wp_ss s) v (prev_index s) (next_pt s) (avg_wp_dist s).

Definition set_prev_index (v : Z) (s : Node) : Node :=
  mkNode (wps s) (wp_ss s) (prev_pt s) v (next_pt s) (avg_wp_dist s).

Definition set_next_pt (v : Z) (s : Node) : Node :=
  mkNode (wps s) (wp_ss s) (prev_pt s) (prev_index s) v (avg_wp_dist s).

Definition set_avg_wp_dist (v : float) (s : Node) : Node :=
  mkNode (wps s) (wp_ss s) (prev_pt s) (prev_index s) (next_pt s) (Some v).

(** [Point()] *)
Definition origin : Point := mkPoint 0 0 0.

(** The attributes after [__init__]. *)
Definition init : Node := mkNode [] [] origin (-1) (-1) None.

(** ** Callbacks as state-passing computations *)

Definition M (A : Type) : Type := Node -> Node * list Output * result A.

Definition ret {A : Type} (a : A) : M A := fun s => (s, [], Ret a).

Definition raise {A : Type} (e : exn) : M A := fun s => (s, [], Raise e).

Definition bind {A B : Type} (m : M A) (k : A -> M B) : M B :=
  fun s =>
    match m s with
    | (s1, o1, Ret a) =>
        match k a s1 with
        | (s2, o2, r) => (s2, o1 ++ o2, r)
        end
    | (s1, o1, Raise e) => (s1, o1, Raise e)
    end.

Definition get : M Node := fun s => (s, [], Ret s).

Definition modify (f : Node -> Node) : M unit := fun s => (f s, [], Ret tt).

Definition publish (o : Output) : M unit := fun s => (s, [o], Ret tt).

Definition lift {A : Type} (r : result A) : M A := fun s => (s, [], r).

Declare Scope node_scope.
Delimit Scope node_scope with node.
Notation "v <- m ;; k" := (bind m (fun v => k))
  (at level 61, m at next level, right associativity) : node_scope.
Notation "m ;; k" := (bind m (fun _ => k))
  (at level 61, right associativity) : node_scope.
Open Scope node_scope.

(** A [for] loop whose body updates local variables [S] and the node. *)
Fixpoint for_loop {A S : Type} (l : list A) (body : A -> S -> M S) (acc : S)
  : M S :=
  match l with
  | [] => ret acc
  | a :: l' => acc' <- body a acc ;; for_loop l' body acc'
  end.

(** The loop of [nearest_waypoint]; it reads [self.wps] only, so it is a
    function of the list.  The locals are [(mini, mindist)]. *)
Fixpoint nearest_scan (ws : list Waypoint) (ppt : Point) (rg : list Z)
  (mini : Z) (mindist : float) : result (Z * float) :=
  match rg with
  | [] => Ret (mini, mindist)
  | i :: rg' =>
      rbind (py_index ws i) (fun wp =>
        let wpt := waypoint_to_point wp in
        let dsq := point_dist_sq wpt ppt in
        if (mini <? 0) || PrimFloat.ltb dsq mindist
        then nearest_scan ws ppt rg' i dsq
        else nearest_scan ws ppt rg' mini mindist)
  end.

Definition wp_ahead : Z := 200.

(** The index range searched: the window around the sticky index when
    there is one, the whole track otherwise. *)
Definition search_range (s : Node) : list Z :=
  if prev_index s >? -1
  then py_range (Z.max 0 (prev_index s - 5))
                (Z.min (len (wps s)) (prev_index s + wp_ahead + 1))
  else py_range 0 (len (wps s)).

Definition nearest_waypoint (p : PoseStamped) : M Z :=
  let ppt := pose_to_point p in
  s <- get ;;
  let prev_dist := point_dist_sq ppt (prev_pt s) in
  avg <- match avg_wp_dist s with
         | Some a => ret a
         | None => raise AttributeError
         end ;;
  (if PrimFloat.ltb (0.5 * avg * float_of_int wp_ahead)%float prev_dist
   then modify (set_prev_index (-1))
   else ret tt) ;;
  modify (set_prev_pt ppt) ;;
  s <- get ;;
  let rg := search_range s in
  r <- lift (nearest_scan (wps s) ppt rg (-1) 0%float) ;;
  let mini := fst r in
  modify (set_prev_index mini) ;;
  first <- lift (py_index rg 0) ;;
  at_end <- (if mini =? first then ret true
             else last <- lift (py_index rg (-1)) ;; ret (mini =? last)) ;;
  (if at_end : bool then modify (set_prev_index (-1)) else ret tt) ;;
  ret mini.

Definition next_waypoint (p : PoseStamped) : M Z :=
  let ept := pose_to_point p in
  cur <- nearest_waypoint p ;;
  s <- get ;;
  let nwps := len (wps s) in
  if (nwps =? 0) || (cur <? 0) || (cur >? len (wps s) - 1)
  then ret (-1)
  else
    wc <- lift (py_index (wps s) cur) ;;
    let cpt := waypoint_to_point wc in
    let prev := (cur + nwps - 1) mod nwps in
    wp <- lift (py_index (wps s) prev) ;;
    let ppt := waypoint_to_point wp in
    let nxt := (cur + 1) mod nwps in
    wn <- lift (py_index (wps s) nxt) ;;
    let npt := waypoint_to_point wn in
    eratio <- lift (line_ratio ppt ept npt) ;;
    cratio <- lift (line_ratio ppt cpt npt) ;;
    if PrimFloat.ltb cratio eratio then ret nxt else ret cur.

(** The waypoints that [pose_cb] puts in the outgoing lane: the slice
    from [next_pt], extended from the start of the track when it runs
    past the end. *)
Definition lookahead (ws : list Waypoint) (nxt : Z) : list Waypoint :=
  let wpsz := len ws in
  let end_pt := nxt + LOOKAHEAD_WPS in
  let past_zero_pt := end_pt - wpsz in
  let end_pt := Z.min end_pt wpsz in
  let olane := py_slice ws (Some nxt) (Some end_pt) in
  if past_zero_pt >? 0
  then olane ++ py_slice ws None (Some past_zero_pt)
  else olane.

(** The roll/pitch/yaw and the formatted time stamp that the source
    computes are used by no statement that is not commented out; for the
    [uint32] seconds and nanoseconds of a header their computation cannot
    raise. *)
Definition pose_cb (msg : PoseStamped) : M unit :=
  s <- get ;;
  if len (wps s) =? 0 then ret tt
  else if negb (seq msg mod 1 =? 0) then ret tt
  else
    nxt <- next_waypoint msg ;;
    modify (set_next_pt nxt) ;;
    if nxt <? 0 then ret tt
    else
      s <- get ;;
      let olane := mkLane "/world"%string (lookahead (wps s) nxt) in
      publish (FinalWaypoints olane) ;;
      publish (NextWaypoint nxt).

(** The body of the first loop of [waypoints_cb]; the locals are
    [(s, prev_pt)].  The loop is entered only after [self.wps[0]] was
    read, so the modulus is never zero. *)
Definition arc_step (i : Z) (acc : float * Point) : M (float * Point) :=
  n <- get ;;
  w <- lift (py_index (wps n) (i mod len (wps n))) ;;
  let cur_pt := waypoint_to_point w in
  d <- lift (point_dist (snd acc) cur_pt) ;;
  let s := (fst acc + d)%float in
  modify (fun n => set_wp_ss (wp_ss n ++ [s]) n) ;;
  ret (s, cur_pt).

(** The body of the second loop: [self.avg_wp_dist += d]. *)
Definition avg_step (i : Z) (_ : unit) : M unit :=
  n <- get ;;
  w <- lift (py_index (wps n) i) ;;
  let pt := waypoint_to_point w in
  w' <- lift (py_index (wps n) (i - 1)) ;;
  let ppt := waypoint_to_point w' in
  d <- lift (point_dist pt ppt) ;;
  n <- get ;;
  match avg_wp_dist n with
  | Some a => modify (set_avg_wp_dist (a + d)%float)
  | None => raise AttributeError
  end.

Definition waypoints_cb (msg : Lane) : M unit :=
  n <- get ;;
  if len (waypoints msg) =? len (wps n) then ret tt
  else
    modify (set_wps (waypoints msg)) ;;
    n <- get ;;
    w0 <- lift (py_index (wps n) 0) ;;
    for_loop (py_range 0 (len (wps n) + 1)) arc_step
             (0%float, waypoint_to_point w0) ;;
    modify (set_avg_wp_dist 0%float) ;;
    for_loop (py_range 1 (len (wps n))) avg_step tt ;;
    n <- get ;;
    match avg_wp_dist n with
    | Some a =>
        q <- lift (py_div a (float_of_int (len (wps n) - 1))) ;;
        modify (set_avg_wp_dist q)
    | None => raise AttributeError
    end.

Definition traffic_cb (data : Z) : M unit :=
  let next_tl := data in
  let sgn := if next_tl <? 0 then -1 else 1 in
  let next_tl := if next_tl <? 0 then next_tl * -1 else next_tl in
  n <- get ;;
  dist <- (if (next_pt n >=? 0) && (next_tl >=? 0)
           then
             let sz := len (wps n) in
             a <- lift (py_index (wp_ss n) next_tl) ;;
             b <- lift (py_index (wp_ss n) (next_pt n)) ;;
             let dist := (a - b)%float in
             if PrimFloat.ltb dist (float_of_int 0)
             then l <- lift (py_index (wp_ss n) sz) ;; ret (dist + l)%float
             else ret dist
           else ret (-1.0)%float) ;;
  publish (TlDistance (float_of_int sgn * dist)%float).

(** [obstacle_cb]: subscribed to nothing, and does nothing. *)
Definition obstacle_cb (msg : Lane) : M unit := ret tt.

(** ** Velocity accessors *)

(** Neither accessor reads or writes the node.  Waypoint objects live in
    a store, and a Python list of waypoints holds their addresses:
    [set_waypoint_velocity] writes through the list into the object. *)
Definition Ref := nat.

Definition Store := Ref -> Waypoint.

Definition get_waypoint_velocity (waypoint : Waypoint) : float :=
  twist_linear_x waypoint.

Definition set_waypoint_velocity (waypoints : list Ref) (waypoint : Z)
    (velocity : float) (h : Store) : Store * result unit :=
  match py_index waypoints waypoint with
  | Ret r =>
      (fun r' => if Nat.eqb r' r then mkWaypoint (wp_pose (h r)) velocity
                 else h r',
       Ret tt)
  | Raise e => (h, Raise e)
  end.

(** ** The node as a whole *)

Inductive Event : Type :=
| PoseEvent (msg : PoseStamped)
| TrackEvent (msg : Lane)
| TrafficEvent (data : Z).

Definition dispatch (e : Event) : M unit :=
  match e with
  | PoseEvent msg => pose_cb msg
  | TrackEvent msg => waypoints_cb msg
  | TrafficEvent data => traffic_cb data
  end.

(** [rospy.spin()]: the callbacks run one at a time, in arrival order; an
    exception ends the callback only. *)
Fixpoint spin (es : list Event) (s : Node) : Node * list Output :=
  match es with
  | [] => (s, [])
  | e :: es' =>
      match dispatch e s with
      | (s1, o1, _) =>
          match spin es' s1 with
          | (s2, o2) => (s2, o1 ++ o2)
          end
      end
  end.

(** ** Tracks and poses used in the examples *)

Definition no_rotation : Quaternion := mkQuaternion 0 0 0 1.

(** Python's [1.6]. *)
Definition f1_6 : float := 0x1.999999999999ap+0%float.

Definition pose_on_x (a : float) : PoseStamped :=
  mkPoseStamped 0 (mkPose (mkPoint a 0 0) no_rotation).

Definition waypoint_on_x (a : float) : Waypoint :=
  mkWaypoint (pose_on_x a) 0.

(** Collinear waypoints at x = 0, 1, ... *)
Definition line1 : Lane := mkLane "/world" [waypoint_on_x 0].

Definition line2 : Lane := mkLane "/world" [waypoint_on_x 0; waypoint_on_x 1].

Definition line3 : Lane :=
  mkLane "/world" [waypoint_on_x 0; waypoint_on_x 1; waypoint_on_x 2].

Definition line4 : Lane :=
  mkLane "/world"
    [waypoint_on_x 0; waypoint_on_x 1; waypoint_on_x 2; waypoint_on_x 3].

(** [n] collinear waypoints at x = 0, 1, ..., n - 1. *)
Definition line (n : nat) : Lane :=
  mkLane "/world"
    (map (fun k => waypoint_on_x (float_of_int (Z.of_nat k))) (List.seq 0 n)).

(** Five collinear waypoints at x = 0, ..., 4. *)
Definition line5 : Lane := line 5.

(** The corners (0,0), (1,0), (1,1), (0,1) of the unit square. *)
Definition unit_square : Lane :=
  mkLane "/world"
    (map (fun c => mkWaypoint
                     (mkPoseStamped 0 (mkPose (mkPoint (fst c) (snd c) 0)
                                              no_rotation)) 0)
         [(0, 0); (1, 0); (1, 1); (0, 1)]%float).

(** Python's [2.1]. *)
Definition f2_1 : float := 0x1.0cccccccccccdp+1%float.

(** The node after the events [es], started from [__init__]. *)
Definition after (es : list Event) : Node := fst (spin es init).

(** A node that holds a straight track of 300 waypoints and has located
    the vehicle at the waypoint of index 250. *)
Definition cruising : Node :=
  after [TrackEvent (line 300); PoseEvent (pose_on_x 250)].

(** A node whose arc-length table reads 50 at index 0, 950 at index 1 and
    1000 (the loop length) at index 2, with the vehicle at index 1. *)
Definition near_loop_end : Node :=
  mkNode (waypoints line2) [50; 950; 1000]%float origin (-1) 1 (Some 1%float).

(** ** Vocabulary of the statements *)

(** Squared distance from the waypoint of index [i] to [ppt]. *)
Definition dist_sq_at (ws : list Waypoint) (ppt : Point) (i : Z) : float :=
  match py_index ws i with
  | Ret w => point_dist_sq (waypoint_to_point w) ppt
  | Raise _ => 0%float
  end.

(** [m] is an index of [lo, hi) and no waypoint of that range is strictly
    nearer to [ppt]. *)
Definition nearest_in (ws : list Waypoint) (ppt : Point) (lo hi m : Z) : Prop :=
  lo <= m < hi /\
  forall j, lo <= j < hi ->
    PrimFloat.ltb (dist_sq_at ws ppt j) (dist_sq_at ws ppt m) = false.

(** The reset test of [nearest_waypoint]: the squared distance to the last
    position exceeds [.5 * avg_wp_dist * 200]. *)
Definition jumped (avg : float) (ppt last : Point) : bool :=
  PrimFloat.ltb (0.5 * avg * float_of_int 200)%float (point_dist_sq ppt last).

(** The sign that [traffic_cb] decodes from its input, as the factor of
    the published product. *)
Definition sign_of (data : Z) : float :=
  float_of_int (if data <? 0 then -1 else 1).

(** The position of the waypoint of index [i]. *)
Definition point_at (ws : list Waypoint) (i : Z) : Point :=
  match py_index ws i with
  | Ret w => waypoint_to_point w
  | Raise _ => origin
  end.

(** A computation that publishes nothing and leaves the track, the
    arc-length table, the average spacing and [next_pt] as they are: it
    touches the tracker's [prev_pt] and [prev_index] only. *)
Definition tracker_only {A : Type} (m : M A) : Prop :=
  forall s s1 o r,
    m s = (s1, o, r) ->
    o = [] /\ wps s1 = wps s /\ wp_ss s1 = wp_ss s /\
    next_pt s1 = next_pt s /\ avg_wp_dist s1 = avg_wp_dist s.

(** A binary64 value that is not below zero: nan, a zero, or a finite or
    infinite one whose sign bit is clear. *)
Definition not_negative (f : spec_float) : Prop :=
  match f with
  | S754_nan | S754_zero _ => True
  | S754_infinity s | S754_finite s _ _ => s = false
  end.

(** A node whose track, if any, comes with its average spacing and with
    an arc-length table that reaches the index [len(self.wps)]. *)
Definition consistent (s : Node) : Prop :=
  wps s <> [] ->
  (exists a, avg_wp_dist s = Some a) /\ len (wps s) < len (wp_ss s).

(** An event that cannot load a track: a pose, a traffic light, or a lane
    without waypoints. *)
Definition loads_nothing (e : Event) : Prop :=
  match e with
  | TrackEvent msg => waypoints msg = []
  | _ => True
  end.

(** Cumulative path length along [pts], started at [prev] with [s]. *)
Fixpoint path_lengths (prev : Point) (s : float) (pts : list Point)
  : list float :=
  match pts with
  | [] => []
  | p :: pts' =>
      let s' := (s + PrimFloat.sqrt (point_dist_sq prev p))%float in
      s' :: path_lengths p s' pts'
  end.

(** The arc lengths of a closed track: along the path from the first
    waypoint through every waypoint and back to the first. *)
Definition loop_lengths (ws : list Waypoint) : list float :=
  match map waypoint_to_point ws with
  | [] => []
  | p0 :: pts => path_lengths p0 0 ((p0 :: pts) ++ [p0])
  end.

(** Sum of the gaps between consecutive points, added to [acc]. *)
Fixpoint gap_sum (acc : float) (prev : Point) (pts : list Point) : float :=
  match pts with
  | [] => acc
  | p :: pts' =>
      gap_sum (acc + PrimFloat.sqrt (point_dist_sq p prev))%float p pts'
  end.

(** An event under which a track of [n] waypoints stays the held one:
    anything but a lane with another number of waypoints. *)
Definition keeps_track (n : Z) (e : Event) : Prop :=
  match e with
  | TrackEvent msg => len (waypoints msg) = n
  | _ => True
  end.

(** The node holds [ws], its average spacing, and a sticky index below
    the track length. *)
Definition on_track (ws : list Waypoint) (s : Node) : Prop :=
  wps s = ws /\ prev_index s < len ws /\ exists a, avg_wp_dist s = Some a.

(** Sign of a divisor that keeps a quotient from turning negative. *)
Definition plus_signed (f : spec_float) : Prop :=
  match f with
  | S754_nan => True
  | S754_zero s | S754_infinity s | S754_finite s _ _ => s = false
  end.

(** Every arc length and the average spacing, when set, are not below
    zero. *)
Definition measured (s : Node) : Prop :=
  Forall (fun v => not_negative (Prim2SF v)) (wp_ss s) /\
  forall a, avg_wp_dist s = Some a -> not_negative (Prim2SF a).

(** A stream of messages in which every lane on [final_waypoints] is
    non-empty, in the world frame, and followed at once by a non-negative
    index on [next_waypoint], and no index comes without its lane. *)
Inductive paired : list Output -> Prop :=
| paired_nil : paired []
| paired_pose lane nxt os :
    frame_id lane = "/world"%string ->
    waypoints lane <> [] ->
    0 <= nxt ->
    paired os ->
    paired (FinalWaypoints lane :: NextWaypoint nxt :: os)
| paired_light d os : paired os -> paired (TlDistance d :: os).

(** * Facts *)

(** ** Python lists *)

Section PyList.

Context {A : Type}.
Implicit Types (l : list A) (i : Z).

Lemma len_nonneg l : 0 <= len l.
Proof. unfold len. lia. Qed.

Lemma len_nil_iff l : len l = 0 <-> l = [].
Proof.
  unfold len. destruct l; simpl; split; intros H; try reflexivity;
    try discriminate; lia.
Qed.

Lemma py_index_inside l i :
  0 <= i < len l ->
  exists a, py_index l i = Ret a /\ nth_error l (Z.to_nat i) = Some a.
Proof.
  intros [H0 H1]. unfold py_index. cbv zeta.
  destruct (Z.ltb_spec i 0) as [C|_]; [lia|].
  destruct (Z.ltb_spec i 0) as [C|_]; [lia|].
  destruct (nth_error l (Z.to_nat i)) as [a|] eqn:E.
  - exists a. split; reflexivity.
  - apply nth_error_None in E. unfold len in H1. lia.
Qed.

Lemma py_index_nth l i (d : A) :
  0 <= i < len l -> py_index l i = Ret (nth (Z.to_nat i) l d).
Proof.
  intros H. destruct (py_index_inside l i H) as (a & -> & E).
  now rewrite (nth_error_nth _ _ d E).
Qed.

Lemma py_index_beyond l i : len l <= i -> py_index l i = Raise IndexError.
Proof.
  intros H. pose proof (len_nonneg l) as Hl. unfold py_index. cbv zeta.
  destruct (Z.ltb_spec i 0) as [C|_]; [lia|].
  destruct (Z.ltb_spec i 0) as [C|_]; [lia|].
  destruct (nth_error l (Z.to_nat i)) as [a|] eqn:E; [|reflexivity].
  assert (Hn : nth_error l (Z.to_nat i) <> None) by (rewrite E; discriminate).
  apply nth_error_Some in Hn. unfold len in H. lia.
Qed.

End PyList.

Lemma py_range_In a b i : In i (py_range a b) <-> a <= i < b.
Proof.
  unfold py_range. rewrite in_map_iff. split.
  - intros (k & <- & Hk). apply in_seq in Hk. lia.
  - intros H. exists (Z.to_nat (i - a)). split; [lia|]. apply in_seq. lia.
Qed.

Lemma len_py_range a b : len (py_range a b) = Z.max 0 (b - a).
Proof. unfold len, py_range. rewrite length_map, length_seq. lia. Qed.

Lemma py_range_nth a b k :
  0 <= k < b - a -> nth_error (py_range a b) (Z.to_nat k) = Some (a + k).
Proof.
  intros H. unfold py_range. rewrite nth_error_map, nth_error_seq.
  replace (Z.to_nat k <? Z.to_nat (b - a))%nat with true
    by (symmetry; apply Nat.ltb_lt; lia).
  simpl. f_equal. lia.
Qed.

Lemma py_range_first a b : a < b -> py_index (py_range a b) 0 = Ret a.
Proof.
  intros H.
  destruct (py_index_inside (py_range a b) 0) as (v & -> & E).
  - rewrite len_py_range. lia.
  - rewrite (py_range_nth a b 0) in E by lia. injection E as <-.
    f_equal. lia.
Qed.

Lemma py_range_last a b : a < b -> py_index (py_range a b) (-1) = Ret (b - 1).
Proof.
  intros H. unfold py_index. cbv zeta. change (-1 <? 0) with true. cbv iota.
  rewrite len_py_range.
  destruct (Z.ltb_spec (-1 + Z.max 0 (b - a)) 0) as [C|_]; [lia|].
  rewrite (py_range_nth a b (-1 + Z.max 0 (b - a))) by lia. f_equal. lia.
Qed.

(** ** The order of binary64 numbers *)

Lemma SFltb_irrefl (a : spec_float) : SFltb a a = false.
Proof.
  unfold SFltb, SFcompare.
  destruct a as [s | s | | s m e]; try destruct s; try reflexivity;
    rewrite Z.compare_refl, Pos.compare_cont_refl; reflexivity.
Qed.

Lemma SFltb_trans (a b c : spec_float) :
  SFltb a b = true -> SFltb b c = true -> SFltb a c = true.
Proof.
  unfold SFltb, SFcompare.
  destruct a as [sa | sa | | sa ma ea]; destruct b as [sb | sb | | sb mb eb];
    destruct c as [sc | sc | | sc mc ec];
    try destruct sa; try destruct sb; try destruct sc;
    try reflexivity; try discriminate.
  all: fold (Pos.compare ma mb); fold (Pos.compare mb mc);
    fold (Pos.compare ma mc).
  all: destruct (Z.compare_spec ea eb); destruct (Z.compare_spec eb ec);
    destruct (Z.compare_spec ea ec); try lia; try reflexivity;
    try discriminate;
    destruct (Pos.compare_spec ma mb); destruct (Pos.compare_spec mb mc);
    destruct (Pos.compare_spec ma mc); simpl; try lia; try reflexivity;
    try discriminate.
Qed.

Lemma float_ltb_irrefl (a : float) : PrimFloat.ltb a a = false.
Proof. rewrite FloatAxioms.ltb_spec. apply SFltb_irrefl. Qed.

Lemma float_ltb_trans (a b c : float) :
  PrimFloat.ltb a b = true -> PrimFloat.ltb b c = true ->
  PrimFloat.ltb a c = true.
Proof. rewrite !FloatAxioms.ltb_spec. apply SFltb_trans. Qed.

Lemma float_ltb_asym (a b : float) :
  PrimFloat.ltb a b = true -> PrimFloat.ltb b a = false.
Proof.
  intros H. destruct (PrimFloat.ltb b a) eqn:E; [|reflexivity].
  pose proof (float_ltb_trans _ _ _ H E) as C.
  rewrite float_ltb_irrefl in C. discriminate.
Qed.

(** ** Sums of squares are not negative *)

Lemma binary_round_aux_sign prec emax m e l :
  not_negative (binary_round_aux prec emax false m e l).
Proof.
  unfold binary_round_aux.
  destruct (shr_fexp prec emax m e l) as [mrs' e'].
  destruct (shr_fexp prec emax _ e' loc_Exact) as [mrs'' e''].
  destruct (shr_m mrs'') as [|q|q]; simpl; auto.
  destruct (e'' <=? emax - prec); simpl; auto.
Qed.

Lemma SFmul_square prec emax f : not_negative (SFmul prec emax f f).
Proof.
  destruct f as [s|s| |s m e]; simpl; auto.
  - now destruct s.
  - rewrite xorb_nilpotent. apply binary_round_aux_sign.
Qed.

Lemma binary_round_sign prec emax m e :
  not_negative (binary_round prec emax false m e).
Proof.
  unfold binary_round. destruct (shl_align m e _) as [mz ez].
  apply binary_round_aux_sign.
Qed.

Lemma SFadd_not_negative prec emax f g :
  not_negative f -> not_negative g -> not_negative (SFadd prec emax f g).
Proof.
  destruct f as [s|s| |s m e]; destruct g as [t|t| |t n e'];
    intros Hf Hg; simpl in Hf, Hg; subst; try exact I; try reflexivity.
  - now destruct s, t.
  - apply binary_round_sign.
Qed.

Lemma SFltb_zero f : not_negative f -> SFltb f (S754_zero false) = false.
Proof. destruct f as [s|s| |s m e]; simpl; intros H; subst; reflexivity. Qed.

Lemma point_dist_sq_not_negative a b :
  PrimFloat.ltb (point_dist_sq a b) 0 = false.
Proof.
  rewrite FloatAxioms.ltb_spec. change (Prim2SF 0) with (S754_zero false).
  apply SFltb_zero. unfold point_dist_sq. cbv zeta.
  rewrite !FloatAxioms.add_spec, !FloatAxioms.mul_spec.
  repeat apply SFadd_not_negative; apply SFmul_square.
Qed.

Lemma point_dist_returns a b :
  point_dist a b = Ret (PrimFloat.sqrt (point_dist_sq a b)).
Proof. unfold point_dist, py_sqrt. now rewrite point_dist_sq_not_negative. Qed.

(** ** The search loop *)

Section Scan.

Variable ws : list Waypoint.
Variable ppt : Point.

Local Abbreviation dsq := (dist_sq_at ws ppt).

Lemma nearest_scan_step i rg mini mindist :
  0 <= i < len ws ->
  nearest_scan ws ppt (i :: rg) mini mindist =
  if (mini <? 0) || PrimFloat.ltb (dsq i) mindist
  then nearest_scan ws ppt rg i (dsq i)
  else nearest_scan ws ppt rg mini mindist.
Proof.
  intros H. unfold dist_sq_at. simpl.
  destruct (py_index_inside ws i H) as (w & -> & _). reflexivity.
Qed.

(** Started with a candidate, the loop ends with that candidate or with a
    strictly nearer waypoint of the range, and nothing in the range is
    strictly nearer than what it ends with. *)
Lemma nearest_scan_from rg :
  forall mini mindist,
    0 <= mini ->
    (forall i, In i rg -> 0 <= i < len ws) ->
    exists m d,
      nearest_scan ws ppt rg mini mindist = Ret (m, d) /\
      ((m = mini /\ d = mindist) \/
       (In m rg /\ d = dsq m /\ PrimFloat.ltb d mindist = true)) /\
      (forall j, In j rg -> PrimFloat.ltb (dsq j) d = false).
Proof.
  induction rg as [|i rg IH]; intros mini mindist Hm Hv.
  - exists mini, mindist. simpl. split; [reflexivity|]. split; [now left|].
    intros j [].
  - rewrite nearest_scan_step by (apply Hv; now left).
    destruct (Z.ltb_spec mini 0) as [C|_]; [lia|]. simpl orb.
    assert (Hi : 0 <= i) by (apply Hv; now left).
    assert (Hv' : forall k, In k rg -> 0 <= k < len ws)
      by (intros k Hk; apply Hv; now right).
    destruct (PrimFloat.ltb (dsq i) mindist) eqn:E.
    + destruct (IH i (dsq i) Hi Hv') as (m & d & -> & Hc & Hmin).
      exists m, d. split; [reflexivity|]. split.
      * right. destruct Hc as [[-> ->]|(Hin & -> & Hlt)].
        -- split; [now left|]. split; [reflexivity|exact E].
        -- split; [now right|]. split; [reflexivity|].
           exact (float_ltb_trans _ _ _ Hlt E).
      * intros j [<-|Hj]; [|now apply Hmin].
        destruct Hc as [[_ ->]|(_ & _ & Hlt)].
        -- apply float_ltb_irrefl.
        -- now apply float_ltb_asym.
    + destruct (IH mini mindist Hm Hv') as (m & d & -> & Hc & Hmin).
      exists m, d. split; [reflexivity|]. split.
      * destruct Hc as [Hc|(Hin & Hd & Hlt)]; [now left|].
        right. split; [now right|]. now split.
      * intros j [<-|Hj]; [|now apply Hmin].
        destruct Hc as [[_ ->]|(_ & _ & Hlt)]; [exact E|].
        destruct (PrimFloat.ltb (dsq i) d) eqn:E'; [|reflexivity].
        rewrite (float_ltb_trans _ _ _ E' Hlt) in E. discriminate.
Qed.

(** Started without a candidate on a non-empty range, the loop ends with
    a waypoint of the range than which none of the range is strictly
    nearer. *)
Lemma nearest_scan_fresh rg :
  rg <> [] ->
  (forall i, In i rg -> 0 <= i < len ws) ->
  exists m,
    nearest_scan ws ppt rg (-1) 0%float = Ret (m, dsq m) /\
    In m rg /\
    (forall j, In j rg -> PrimFloat.ltb (dsq j) (dsq m) = false).
Proof.
  destruct rg as [|i rg]; [congruence|]. intros _ Hv.
  rewrite nearest_scan_step by (apply Hv; now left).
  change (-1 <? 0) with true. simpl orb. cbv iota.
  assert (Hi : 0 <= i) by (apply Hv; now left).
  assert (Hv' : forall k, In k rg -> 0 <= k < len ws)
    by (intros k Hk; apply Hv; now right).
  destruct (nearest_scan_from rg i (dsq i) Hi Hv') as (m & d & -> & Hc & Hmin).
  exists m. destruct Hc as [[-> ->]|(Hin & -> & Hlt)].
  - split; [reflexivity|]. split; [now left|].
    intros j [<-|Hj]; [apply float_ltb_irrefl|now apply Hmin].
  - split; [reflexivity|]. split; [now right|].
    intros j [<-|Hj]; [now apply float_ltb_asym|now apply Hmin].
Qed.

Lemma nearest_scan_range lo hi :
  0 <= lo -> lo < hi -> hi <= len ws ->
  exists m,
    nearest_scan ws ppt (py_range lo hi) (-1) 0%float = Ret (m, dsq m) /\
    nearest_in ws ppt lo hi m.
Proof.
  intros H0 H1 H2.
  destruct (nearest_scan_fresh (py_range lo hi)) as (m & E & Hin & Hmin).
  - intros C. assert (Hl : In lo (py_range lo hi)) by (apply py_range_In; lia).
    rewrite C in Hl. exact Hl.
  - intros i Hi. apply py_range_In in Hi. lia.
  - exists m. split; [exact E|]. split.
    + now apply py_range_In.
    + intros j Hj. apply Hmin. now apply py_range_In.
Qed.

End Scan.

(** ** Running a computation *)

Lemma bind_quiet {A B : Type} (m : M A) (k : A -> M B) s s1 a :
  m s = (s1, [], Ret a) -> bind m k s = k a s1.
Proof.
  intros H. unfold bind. rewrite H. destruct (k a s1) as [[s2 o2] r].
  reflexivity.
Qed.

Ltac quiet := erewrite bind_quiet by reflexivity.

(** ** Computations that touch the tracker only *)

Lemma tracker_only_ret {A : Type} (a : A) : tracker_only (ret a).
Proof. intros s s1 o r H. injection H as <- <- <-. auto. Qed.

Lemma tracker_only_raise {A : Type} (e : exn) : tracker_only (@raise A e).
Proof. intros s s1 o r H. injection H as <- <- <-. auto. Qed.

Lemma tracker_only_lift {A : Type} (x : result A) : tracker_only (lift x).
Proof. intros s s1 o r H. injection H as <- <- <-. auto. Qed.

Lemma tracker_only_get : tracker_only get.
Proof. intros s s1 o r H. injection H as <- <- <-. auto. Qed.

Lemma tracker_only_set_prev_index v : tracker_only (modify (set_prev_index v)).
Proof. intros s s1 o r H. injection H as <- <- <-. simpl. auto. Qed.

Lemma tracker_only_set_prev_pt v : tracker_only (modify (set_prev_pt v)).
Proof. intros s s1 o r H. injection H as <- <- <-. simpl. auto. Qed.

Lemma tracker_only_bind {A B : Type} (m : M A) (k : A -> M B) :
  tracker_only m -> (forall a, tracker_only (k a)) -> tracker_only (bind m k).
Proof.
  intros Hm Hk s s2 o r. unfold bind.
  destruct (m s) as [[s1 o1] [a|e]] eqn:Em.
  - destruct (k a s1) as [[s2' o2] r'] eqn:Ek. intros H.
    injection H as <- <- <-.
    destruct (Hm _ _ _ _ Em) as (-> & ? & ? & ? & ?).
    destruct (Hk a _ _ _ _ Ek) as (-> & ? & ? & ? & ?).
    simpl. repeat split; congruence.
  - intros H. injection H as <- <- <-. exact (Hm _ _ _ _ Em).
Qed.

Lemma tracker_only_if {A : Type} (c : bool) (m1 m2 : M A) :
  tracker_only m1 -> tracker_only m2 -> tracker_only (if c then m1 else m2).
Proof. now destruct c. Qed.

Create HintDb tracker.

#[local] Hint Resolve tracker_only_ret tracker_only_raise tracker_only_lift
  tracker_only_get tracker_only_set_prev_index tracker_only_set_prev_pt
  tracker_only_if : tracker.

Ltac tracker :=
  repeat first
    [ apply tracker_only_bind; [|intros ?]
    | match goal with
      | |- tracker_only (match ?x with _ => _ end) => destruct x
      end
    | solve [auto with tracker] ].

Lemma tracker_only_nearest_waypoint p : tracker_only (nearest_waypoint p).
Proof. unfold nearest_waypoint. tracker. Qed.

Lemma tracker_only_next_waypoint p : tracker_only (next_waypoint p).
Proof.
  unfold next_waypoint.
  apply tracker_only_bind; [apply tracker_only_nearest_waypoint|intros cur].
  tracker.
Qed.

(** ** Slices and the lookahead window *)

Lemma py_slice_from_to {A} (l : list A) a b :
  0 <= a -> 0 <= b ->
  py_slice l (Some a) (Some b) =
  firstn (Z.to_nat (Z.min b (len l) - Z.min a (len l)))
         (skipn (Z.to_nat (Z.min a (len l))) l).
Proof.
  intros Ha Hb. unfold py_slice, py_bound.
  destruct (Z.ltb_spec a 0); [lia|]. destruct (Z.ltb_spec b 0); [lia|].
  reflexivity.
Qed.

Lemma py_slice_to {A} (l : list A) b :
  0 <= b -> py_slice l None (Some b) = firstn (Z.to_nat (Z.min b (len l))) l.
Proof.
  intros Hb. unfold py_slice, py_bound.
  destruct (Z.ltb_spec b 0); [lia|]. rewrite Z.sub_0_r. reflexivity.
Qed.

Lemma lookahead_split ws nxt :
  0 <= nxt < len ws ->
  lookahead ws nxt =
  firstn (Z.to_nat (Z.min 240 (len ws - nxt))) (skipn (Z.to_nat nxt) ws) ++
  firstn (Z.to_nat (Z.max 0 (Z.min (nxt + 240 - len ws) (len ws)))) ws.
Proof.
  intros H. unfold lookahead, LOOKAHEAD_WPS. cbv zeta.
  rewrite py_slice_from_to by lia.
  replace (Z.min (Z.min (nxt + 240) (len ws)) (len ws) - Z.min nxt (len ws))
    with (Z.min 240 (len ws - nxt)) by lia.
  replace (Z.min nxt (len ws)) with nxt by lia.
  destruct (Z.gtb_spec (nxt + 240 - len ws) 0) as [Hp|Hp].
  - rewrite py_slice_to by lia. do 2 f_equal. lia.
  - replace (Z.to_nat (Z.max 0 (Z.min (nxt + 240 - len ws) (len ws))))
      with 0%nat by lia.
    simpl. now rewrite app_nil_r.
Qed.

Lemma lookahead_spec ws nxt :
  0 <= nxt < len ws ->
  len (lookahead ws nxt) = Z.min 240 (2 * len ws - nxt) /\
  forall k, 0 <= k < len (lookahead ws nxt) ->
    nth_error (lookahead ws nxt) (Z.to_nat k) =
    nth_error ws (Z.to_nat ((nxt + k) mod len ws)).
Proof.
  intros H. rewrite lookahead_split by exact H.
  set (n := len ws) in *.
  set (head := firstn (Z.to_nat (Z.min 240 (n - nxt)))
                 (skipn (Z.to_nat nxt) ws)).
  set (wrap := firstn (Z.to_nat (Z.max 0 (Z.min (nxt + 240 - n) n))) ws).
  assert (Hlen1 : length head = Z.to_nat (Z.min 240 (n - nxt))).
  { unfold head. rewrite length_firstn, length_skipn. unfold n, len in *.
    lia. }
  assert (Hlen2 : length wrap =
                  Z.to_nat (Z.max 0 (Z.min (nxt + 240 - n) n))).
  { unfold wrap. rewrite length_firstn. unfold n, len in *. lia. }
  assert (Hlen : len (head ++ wrap) = Z.min 240 (2 * n - nxt)).
  { unfold len at 1. rewrite length_app, Hlen1, Hlen2. lia. }
  split; [exact Hlen|]. rewrite Hlen. intros k Hk.
  destruct (Z_lt_ge_dec k (n - nxt)) as [Hin|Hout].
  - rewrite nth_error_app1 by (rewrite Hlen1; lia).
    unfold head. rewrite nth_error_firstn.
    replace (Z.to_nat k <? Z.to_nat (Z.min 240 (n - nxt)))%nat with true
      by (symmetry; apply Nat.ltb_lt; lia).
    rewrite nth_error_skipn. rewrite Z.mod_small by lia. f_equal. lia.
  - rewrite nth_error_app2 by (rewrite Hlen1; lia).
    rewrite Hlen1. unfold wrap. rewrite nth_error_firstn.
    replace (Z.to_nat k - Z.to_nat (Z.min 240 (n - nxt)) <?
             Z.to_nat (Z.max 0 (Z.min (nxt + 240 - n) n)))%nat with true
      by (symmetry; apply Nat.ltb_lt; lia).
    replace ((nxt + k) mod n) with (nxt + k - n).
    + f_equal. lia.
    + apply Z.mod_unique with (q := 1); lia.
Qed.

(** ** The position tracker *)

Lemma search_range_bounds s :
  search_range s =
  py_range (if prev_index s >? -1 then Z.max 0 (prev_index s - 5) else 0)
           (if prev_index s >? -1
            then Z.min (len (wps s)) (prev_index s + 200 + 1)
            else len (wps s)).
Proof. unfold search_range, wp_ahead. now destruct (prev_index s >? -1). Qed.

Lemma nearest_waypoint_run st p avg :
  avg_wp_dist st = Some avg ->
  let ppt := pose_to_point p in
  let sticky := if jumped avg ppt (prev_pt st) then -1 else prev_index st in
  let n := len (wps st) in
  let lo := if sticky >? -1 then Z.max 0 (sticky - 5) else 0 in
  let hi := if sticky >? -1 then Z.min n (sticky + 200 + 1) else n in
  lo < hi ->
  exists mini,
    nearest_in (wps st) ppt lo hi mini /\
    nearest_scan (wps st) ppt (py_range lo hi) (-1) 0%float =
      Ret (mini, dist_sq_at (wps st) ppt mini) /\
    nearest_waypoint p st =
      (mkNode (wps st) (wp_ss st) ppt
         (if (mini =? lo) || (mini =? hi - 1) then -1 else mini)
         (next_pt st) (avg_wp_dist st), [], Ret mini).
Proof.
  intros Havg ppt sticky n lo hi Hlt.
  assert (Hlo : 0 <= lo) by (subst lo; destruct (sticky >? -1); lia).
  assert (Hhi : hi <= len (wps st))
    by (subst hi n; destruct (sticky >? -1); lia).
  destruct (nearest_scan_range (wps st) ppt lo hi Hlo Hlt Hhi) as (m & E & Hn).
  exists m. split; [exact Hn|]. split; [exact E|].
  unfold nearest_waypoint. fold ppt. quiet. rewrite Havg. quiet.
  change (PrimFloat.ltb (0.5 * avg * float_of_int wp_ahead)%float
            (point_dist_sq ppt (prev_pt st)))
    with (jumped avg ppt (prev_pt st)).
  assert (Hs : exists s0,
    (if jumped avg ppt (prev_pt st)
     then modify (set_prev_index (-1)) else ret tt) st = (s0, [], Ret tt) /\
    wps s0 = wps st /\ wp_ss s0 = wp_ss st /\ next_pt s0 = next_pt st /\
    prev_index s0 = sticky /\ avg_wp_dist s0 = Some avg).
  { subst sticky. destruct (jumped avg ppt (prev_pt st)); eexists;
      (split; [reflexivity|]); simpl; auto. }
  destruct Hs as (s0 & Hs & Hw & Hss & Hnp & Hpi & Hav).
  rewrite (bind_quiet _ _ _ _ _ Hs). quiet. quiet.
  rewrite search_range_bounds. cbn [prev_index wps set_prev_pt].
  rewrite Hpi, Hw. fold n. fold lo hi. rewrite E.
  quiet. quiet. cbn [fst]. rewrite (py_range_first lo hi Hlt). quiet.
  rewrite (py_range_last lo hi Hlt).
  destruct (Z.eqb_spec m lo) as [e|ne]; simpl orb; cbv iota.
  - quiet. quiet. unfold ret, modify, set_prev_index, set_prev_pt. simpl.
    rewrite Hw, Hss, Hnp, Hav. reflexivity.
  - quiet. destruct (m =? hi - 1); quiet;
      unfold ret, modify, set_prev_index, set_prev_pt; simpl;
      rewrite Hw, Hss, Hnp, Hav; reflexivity.
Qed.

Lemma point_at_index ws i w :
  py_index ws i = Ret w -> point_at ws i = waypoint_to_point w.
Proof. intros H. unfold point_at. now rewrite H. Qed.

Lemma next_waypoint_result st p s1 o v :
  next_waypoint p st = (s1, o, Ret v) ->
  v = -1 \/ 0 <= v < len (wps st).
Proof.
  unfold next_waypoint, bind. intros H.
  destruct (nearest_waypoint p st) as [[s' o'] [cur|e]] eqn:En;
    [|discriminate].
  destruct (tracker_only_nearest_waypoint p _ _ _ _ En) as (-> & Hw & _).
  unfold get, lift, ret in H. rewrite Hw in H.
  set (n := len (wps st)) in *.
  destruct (Z.eqb_spec n 0) as [C|Hn0];
    [simpl in H; left; congruence|].
  destruct (Z.ltb_spec cur 0) as [C|Hc0];
    [simpl in H; left; congruence|].
  destruct (Z.gtb_spec cur (n - 1)) as [C|Hc1];
    [simpl in H; left; congruence|].
  simpl in H. right.
  assert (Hx : 0 <= (cur + 1) mod n < n) by (apply Z.mod_pos_bound; lia).
  repeat match type of H with
    | context [py_index ?l ?i] => destruct (py_index l i); simpl in H
    | context [line_ratio ?a ?b ?c] => destruct (line_ratio a b c); simpl in H
    | context [PrimFloat.ltb ?a ?b] => destruct (PrimFloat.ltb a b); simpl in H
    end;
    try discriminate;
    match type of H with (_, _, Ret ?w) = _ => assert (v = w) by congruence
    end; lia.
Qed.

(** ** The relay and the events before a track *)

Lemma traffic_cb_no_fix st d :
  next_pt st < 0 ->
  traffic_cb d st =
    (st, [TlDistance (sign_of d * -1.0)%float], Ret tt).
Proof.
  intros H. unfold traffic_cb. quiet.
  destruct (Z.geb_spec (next_pt st) 0) as [C|_]; [lia|].
  cbn [andb]. quiet. reflexivity.
Qed.

Lemma decoded_magnitude d : (if d <? 0 then d * -1 else d) = Z.abs d.
Proof. destruct (Z.ltb_spec d 0); lia. Qed.

Lemma dispatch_loads_nothing e :
  loads_nothing e -> fst (fst (dispatch e init)) = init.
Proof.
  destruct e as [msg|msg|d]; intros H; unfold dispatch.
  - reflexivity.
  - simpl in H. unfold waypoints_cb. quiet. rewrite H. reflexivity.
  - rewrite traffic_cb_no_fix by (simpl; lia). reflexivity.
Qed.

Lemma after_loads_nothing es : Forall loads_nothing es -> after es = init.
Proof.
  unfold after. induction 1 as [|e es He _ IH]; [reflexivity|].
  simpl. pose proof (dispatch_loads_nothing e He) as Hd.
  destruct (dispatch e init) as [[s1 o1] r]. simpl in Hd. subst s1.
  destruct (spin es init) as [s2 o2]. simpl in IH. now subst s2.
Qed.

(** The relay with a position fix and all three table indices in
    range. *)
Lemma traffic_cb_run st d :
  Z.abs d < len (wp_ss st) ->
  0 <= next_pt st < len (wp_ss st) ->
  len (wps st) < len (wp_ss st) ->
  let arc i := nth (Z.to_nat i) (wp_ss st) 0%float in
  let raw := (arc (Z.abs d) - arc (next_pt st))%float in
  let dist :=
    if PrimFloat.ltb raw 0 then (raw + arc (len (wps st)))%float else raw in
  traffic_cb d st = (st, [TlDistance (sign_of d * dist)%float], Ret tt).
Proof.
  intros Hm Hn Hs arc raw dist.
  unfold traffic_cb. quiet. rewrite decoded_magnitude.
  destruct (Z.geb_spec (next_pt st) 0) as [_|C]; [|lia].
  destruct (Z.geb_spec (Z.abs d) 0) as [_|C]; [|lia].
  cbn [andb].
  rewrite (py_index_nth (wp_ss st) (Z.abs d) 0%float) by lia.
  rewrite (py_index_nth (wp_ss st) (next_pt st) 0%float) by lia.
  rewrite (py_index_nth (wp_ss st) (len (wps st)) 0%float)
    by (pose proof (len_nonneg (wps st)); lia).
  change (float_of_int 0) with 0%float.
  fold (arc (Z.abs d)) (arc (next_pt st)) (arc (len (wps st))).
  unfold bind at 1. quiet. quiet. fold raw. subst dist.
  destruct (PrimFloat.ltb raw 0); [quiet|]; reflexivity.
Qed.

Lemma traffic_cb_keeps_node st d : fst (fst (traffic_cb d st)) = st.
Proof.
  unfold traffic_cb, bind, get, lift, ret, publish.
  destruct ((next_pt st >=? 0) && _); [|reflexivity].
  destruct (py_index (wp_ss st) _) as [a|e]; [|reflexivity].
  destruct (py_index (wp_ss st) (next_pt st)) as [b|e]; [|reflexivity].
  destruct (PrimFloat.ltb _ _); [|reflexivity].
  destruct (py_index (wp_ss st) _) as [l|e]; reflexivity.
Qed.

(** ** Loading a track *)

(** One pass of the first loop appends one entry to the table. *)
Lemma arc_step_run i acc s :
  wps s <> [] ->
  exists v pt,
    arc_step i acc s = (set_wp_ss (wp_ss s ++ [v]) s, [], Ret (v, pt)).
Proof.
  intros Hne. unfold arc_step. quiet.
  assert (Hn : 0 < len (wps s)).
  { pose proof (len_nonneg (wps s)). pose proof (len_nil_iff (wps s)).
    destruct (Z.eq_dec (len (wps s)) 0); [tauto|lia]. }
  destruct (py_index_inside (wps s) (i mod len (wps s))) as (w & -> & _);
    [apply Z.mod_pos_bound; exact Hn|].
  quiet. rewrite point_dist_returns. quiet. quiet.
  eexists. eexists. reflexivity.
Qed.

Lemma arc_loop_run l :
  forall acc s,
    wps s <> [] ->
    exists tbl acc',
      for_loop l arc_step acc s = (set_wp_ss (wp_ss s ++ tbl) s, [], Ret acc')
      /\ len tbl = len l.
Proof.
  induction l as [|i l IH]; intros acc s Hne.
  - exists [], acc. split; [|reflexivity]. simpl. unfold ret.
    rewrite app_nil_r. destruct s; reflexivity.
  - destruct (arc_step_run i acc s Hne) as (v & pt & E).
    simpl. rewrite (bind_quiet _ _ _ _ _ E).
    destruct (IH (v, pt) (set_wp_ss (wp_ss s ++ [v]) s) Hne)
      as (tbl & acc' & E' & Hl).
    exists (v :: tbl), acc'. split.
    + rewrite E'. unfold set_wp_ss. simpl. rewrite <- app_assoc. reflexivity.
    + unfold len in *. simpl. lia.
Qed.

Lemma avg_step_run i s a :
  avg_wp_dist s = Some a ->
  1 <= i < len (wps s) ->
  exists a', avg_step i tt s = (set_avg_wp_dist a' s, [], Ret tt).
Proof.
  intros Ha Hi. unfold avg_step. quiet.
  destruct (py_index_inside (wps s) i) as (w & -> & _); [lia|]. quiet.
  destruct (py_index_inside (wps s) (i - 1)) as (w' & -> & _); [lia|]. quiet.
  rewrite point_dist_returns. quiet. quiet. rewrite Ha.
  eexists. reflexivity.
Qed.

Lemma avg_loop_run l :
  forall s a,
    avg_wp_dist s = Some a ->
    (forall i, In i l -> 1 <= i < len (wps s)) ->
    exists a', for_loop l avg_step tt s = (set_avg_wp_dist a' s, [], Ret tt).
Proof.
  induction l as [|i l IH]; intros s a Ha Hl.
  - exists a. simpl. unfold ret, set_avg_wp_dist. rewrite <- Ha.
    destruct s; reflexivity.
  - destruct (avg_step_run i s a Ha (Hl i (or_introl eq_refl))) as (a1 & E).
    simpl. rewrite (bind_quiet _ _ _ _ _ E).
    destruct (IH (set_avg_wp_dist a1 s) a1 eq_refl) as (a' & E').
    + intros k Hk. apply Hl. now right.
    + exists a'. rewrite E'. reflexivity.
Qed.

(** A lane that is ingested: the track is replaced, one entry per
    waypoint and a closing one are appended to the table, the average
    spacing is assigned, and only the final division can raise. *)
Lemma waypoints_cb_loads msg s :
  len (waypoints msg) <> len (wps s) ->
  waypoints msg <> [] ->
  exists tbl a r,
    waypoints_cb msg s =
      (mkNode (waypoints msg) (wp_ss s ++ tbl) (prev_pt s) (prev_index s)
         (next_pt s) (Some a), [], r) /\
    len tbl = len (waypoints msg) + 1 /\
    (r = Ret tt \/ r = Raise ZeroDivisionError).
Proof.
  intros Hd Hne. unfold waypoints_cb. quiet.
  destruct (Z.eqb_spec (len (waypoints msg)) (len (wps s))) as [C|_];
    [contradiction|].
  quiet. quiet. cbn [wps set_wps].
  assert (Hn : 0 < len (waypoints msg)).
  { pose proof (len_nonneg (waypoints msg)).
    pose proof (len_nil_iff (waypoints msg)).
    destruct (Z.eq_dec (len (waypoints msg)) 0); [tauto|lia]. }
  destruct (py_index_inside (waypoints msg) 0) as (w0 & -> & _); [lia|].
  quiet.
  destruct (arc_loop_run (py_range 0 (len (waypoints msg) + 1))
              (0%float, waypoint_to_point w0) (set_wps (waypoints msg) s) Hne)
    as (tbl & acc' & E & Hl).
  rewrite (bind_quiet _ _ _ _ _ E). quiet.
  rewrite len_py_range in Hl.
  destruct (avg_loop_run (py_range 1 (len (waypoints msg)))
              (set_avg_wp_dist 0
                 (set_wp_ss (wp_ss (set_wps (waypoints msg) s) ++ tbl)
                    (set_wps (waypoints msg) s))) 0%float eq_refl)
    as (a' & E2).
  { intros i Hi. apply py_range_In in Hi. exact Hi. }
  rewrite (bind_quiet _ _ _ _ _ E2). quiet. cbn [avg_wp_dist set_avg_wp_dist].
  cbn [wps set_wp_ss set_wps set_avg_wp_dist].
  unfold py_div. destruct (PrimFloat.eqb _ 0).
  - exists tbl, a', (Raise ZeroDivisionError). split; [reflexivity|].
    split; [lia|now right].
  - eexists tbl, _, (Ret tt). split; [reflexivity|]. split; [lia|now left].
Qed.

(** ** What every run preserves *)

Lemma pose_cb_frame msg s s' o r :
  pose_cb msg s = (s', o, r) ->
  wps s' = wps s /\ wp_ss s' = wp_ss s /\ avg_wp_dist s' = avg_wp_dist s.
Proof.
  unfold pose_cb. rewrite (bind_quiet get _ s s s eq_refl).
  destruct (len (wps s) =? 0); [intros H; injection H as <- _ _; auto|].
  destruct (negb _); [intros H; injection H as <- _ _; auto|].
  unfold bind at 1.
  destruct (next_waypoint msg s) as [[s1 o1] [nxt|e]] eqn:En;
    destruct (tracker_only_next_waypoint msg _ _ _ _ En)
      as (_ & Hw & Hs & _ & Ha).
  - quiet. destruct (nxt <? 0).
    + intros H. injection H as <- _ _. simpl. auto.
    + quiet. unfold bind, publish. intros H. injection H as <- _ _.
      simpl. auto.
  - intros H. injection H as <- _ _. auto.
Qed.

Lemma dispatch_consistent e s s' o r :
  consistent s -> dispatch e s = (s', o, r) -> consistent s'.
Proof.
  intros Hc. destruct e as [msg|msg|d]; unfold dispatch; intros H.
  - destruct (pose_cb_frame _ _ _ _ _ H) as (Hw & Hs & Ha).
    unfold consistent. rewrite Hw, Hs, Ha. exact Hc.
  - destruct (Z.eq_dec (len (waypoints msg)) (len (wps s))) as [E|D].
    + unfold waypoints_cb in H. rewrite (bind_quiet get _ s s s eq_refl) in H.
      rewrite E, Z.eqb_refl in H. injection H as <- _ _. exact Hc.
    + destruct (waypoints msg) as [|w ws] eqn:Ew.
      * unfold waypoints_cb in H. rewrite (bind_quiet get _ s s s eq_refl) in H.
        rewrite Ew in H.
        destruct (Z.eqb_spec (len (@nil Waypoint)) (len (wps s))) as [C|_];
          [contradiction|].
        injection H as <- _ _. intros C. now contradiction C.
      * destruct (waypoints_cb_loads msg s) as (tbl & a & r' & E & Hl & _).
        -- now rewrite Ew.
        -- rewrite Ew. discriminate.
        -- rewrite E in H. injection H as <- _ _. intros _. simpl. split.
           ++ now exists a.
           ++ unfold len in *. rewrite length_app. lia.
  - pose proof (traffic_cb_keeps_node s d) as Hr. rewrite H in Hr.
    simpl in Hr. now subst s'.
Qed.

Lemma spin_consistent es :
  forall s, consistent s -> consistent (fst (spin es s)).
Proof.
  induction es as [|e es IH]; intros s Hc; [exact Hc|].
  simpl. destruct (dispatch e s) as [[s1 o1] r] eqn:E.
  pose proof (IH s1 (dispatch_consistent _ _ _ _ _ Hc E)) as H.
  destruct (spin es s1) as [s2 o2]. exact H.
Qed.

(** * The claims *)

(** ** The lookahead publisher *)




(** ** The track model *)

(** C2, the code at the failing input.  A track of three waypoints is
    loaded and then replaced by one of four: the new entries are appended
    to the old arc-length table, which now has nine entries instead of
    five, and its entry of index 4 is 0 instead of the loop length 6. *)
Theorem arc_length_table_grows_on_reload :
  len (wps (after [TrackEvent line3; TrackEvent line4])) = 4 /\
  wp_ss (after [TrackEvent line3]) = [0; 1; 2; 4]%float /\
  wp_ss (after [TrackEvent line3; TrackEvent line4]) =
    [0; 1; 2; 4; 0; 1; 2; 3; 6]%float /\
  py_index (wp_ss (after [TrackEvent line3; TrackEvent line4])) 4 =
    Ret 0%float.
Proof. repeat split; vm_compute; reflexivity. Qed.

(** C9, the code at the failing inputs.  Loading a single waypoint stores
    the track and two table entries and then divides by zero; loading an
    empty lane over a held track empties the track and then raises
    [IndexError]. *)
Theorem degenerate_track_raises :
  waypoints_cb line1 init =
    (mkNode (waypoints line1) [0; 0]%float origin (-1) (-1) (Some 0%float),
     [], Raise ZeroDivisionError) /\
  waypoints_cb (mkLane "/world" []) (after [TrackEvent line3]) =
    (set_wps [] (after [TrackEvent line3]), [], Raise IndexError).
Proof. split; vm_compute; reflexivity. Qed.

(** ** The traffic-light relay *)

(** C3.  When the decoded magnitude and the last next-waypoint index are
    indices of the arc-length table, and the table reaches the index
    [len(self.wps)] of the loop length, the relay publishes
    sign * dist, where dist is the difference of the two entries, plus the
    loop length when that difference is negative.  With loop length 1000,
    the vehicle at 950, the light at 50 and a non-negative input it
    publishes +100. *)
Theorem traffic_cb_distance st d :
  Z.abs d < len (wp_ss st) ->
  0 <= next_pt st < len (wp_ss st) ->
  len (wps st) < len (wp_ss st) ->
  let arc i := nth (Z.to_nat i) (wp_ss st) 0%float in
  let raw := (arc (Z.abs d) - arc (next_pt st))%float in
  let dist :=
    if PrimFloat.ltb raw 0 then (raw + arc (len (wps st)))%float else raw in
  traffic_cb d st = (st, [TlDistance (sign_of d * dist)%float], Ret tt) /\
  (0 <= d -> arc (len (wps st)) = 1000%float ->
   arc (next_pt st) = 950%float -> arc (Z.abs d) = 50%float ->
   traffic_cb d st = (st, [TlDistance 100], Ret tt)).
Proof.
  intros Hm Hn Hs arc raw dist.
  pose proof (traffic_cb_run st d Hm Hn Hs) as E. cbv zeta in E.
  fold arc in E. fold raw in E. fold dist in E.
  split; [exact E|].
  intros Hd Ht Hv Hl. rewrite E. subst dist raw. unfold sign_of.
  rewrite Ht, Hv, Hl.
  destruct (Z.ltb_spec d 0) as [C|_]; [lia|]. vm_compute. reflexivity.
Qed.

(** C3, witness: a table [50; 950; 1000] over two waypoints, the vehicle
    at index 1 and the input 0. *)
Lemma traffic_cb_distance_witness :
  Z.abs 0 < len (wp_ss near_loop_end) /\
  0 <= next_pt near_loop_end < len (wp_ss near_loop_end) /\
  len (wps near_loop_end) < len (wp_ss near_loop_end) /\
  traffic_cb 0 near_loop_end = (near_loop_end, [TlDistance 100], Ret tt).
Proof.
  assert (H1 : Z.abs 0 < len (wp_ss near_loop_end))
    by (vm_compute; reflexivity).
  assert (H2 : 0 <= next_pt near_loop_end < len (wp_ss near_loop_end))
    by (vm_compute; split; [discriminate|reflexivity]).
  assert (H3 : len (wps near_loop_end) < len (wp_ss near_loop_end))
    by (vm_compute; reflexivity).
  repeat (split; [assumption|]).
  apply (proj2 (traffic_cb_distance near_loop_end 0 H1 H2 H3));
    [lia|reflexivity|reflexivity|reflexivity].
Defined.

(** C10.  With a next-waypoint index that is not negative, an input whose
    decoded magnitude lies beyond the last index of the arc-length table
    makes the relay raise [IndexError]: nothing is published and no
    attribute changes. *)
Theorem traffic_cb_out_of_range st d :
  0 <= next_pt st ->
  len (wp_ss st) <= Z.abs d ->
  traffic_cb d st = (st, [], Raise IndexError).
Proof.
  intros Hn Hm. unfold traffic_cb. quiet. rewrite decoded_magnitude.
  destruct (Z.geb_spec (next_pt st) 0) as [_|C]; [|lia].
  destruct (Z.geb_spec (Z.abs d) 0) as [_|C]; [|lia].
  cbn [andb]. rewrite (py_index_beyond (wp_ss st) (Z.abs d) Hm).
  reflexivity.
Qed.

(** C10, witness: three waypoints (a table of four entries), the vehicle
    located at index 1, and the input -4. *)
Lemma traffic_cb_out_of_range_witness :
  0 <= next_pt (after [TrackEvent line3; PoseEvent (pose_on_x 1)]) /\
  len (wp_ss (after [TrackEvent line3; PoseEvent (pose_on_x 1)])) <=
    Z.abs (-4) /\
  traffic_cb (-4) (after [TrackEvent line3; PoseEvent (pose_on_x 1)]) =
    (after [TrackEvent line3; PoseEvent (pose_on_x 1)], [],
     Raise IndexError).
Proof.
  assert (H1 : 0 <= next_pt (after [TrackEvent line3; PoseEvent (pose_on_x 1)]))
    by (vm_compute; discriminate).
  assert (H2 : len (wp_ss (after [TrackEvent line3; PoseEvent (pose_on_x 1)]))
               <= Z.abs (-4)) by (vm_compute; discriminate).
  exact (conj H1 (conj H2 (traffic_cb_out_of_range _ _ H1 H2))).
Defined.

(** C6, the code at the failing input.  Without a next-waypoint index and
    with a negative input (a light that is not red) the relay publishes
    +1.0, a positive value. *)
Theorem traffic_cb_sentinel_sign :
  next_pt init = -1 /\
  traffic_cb (-3) init = (init, [TlDistance 1], Ret tt) /\
  traffic_cb 3 init = (init, [TlDistance (-1)], Ret tt).
Proof. repeat split; vm_compute; reflexivity. Qed.

(** ** Events before a track is loaded *)

(** C5, counterexample.  A traffic-light event that is the node's first
    event publishes -1.0 on [tl_distance]. *)
Lemma traffic_event_before_track_publishes :
  dispatch (TrafficEvent 0) (after []) =
    (after [], [TlDistance (-1)], Ret tt).
Proof. vm_compute. reflexivity. Qed.

(** C5, amended.  As long as no track has been loaded, a pose event is
    ignored: it publishes nothing and changes no attribute.  A
    traffic-light event changes no attribute either, but it is not
    ignored: it publishes one value on [tl_distance], which is -1.0 when
    the input is not negative. *)
Theorem events_before_track es :
  Forall loads_nothing es ->
  (forall msg, pose_cb msg (after es) = (after es, [], Ret tt)) /\
  (forall d, exists v,
     traffic_cb d (after es) = (after es, [TlDistance v], Ret tt) /\
     (0 <= d -> v = (-1)%float)).
Proof.
  intros H. rewrite (after_loads_nothing es H). split.
  - intros msg. reflexivity.
  - intros d. exists (sign_of d * -1.0)%float. split.
    + now apply traffic_cb_no_fix.
    + intros Hd. unfold sign_of.
      destruct (Z.ltb_spec d 0) as [C|_]; [lia|]. vm_compute. reflexivity.
Qed.

(** C5, witness: a pose event and a traffic-light event have been served,
    no track has arrived. *)
Lemma events_before_track_witness :
  Forall loads_nothing [PoseEvent (pose_on_x 1); TrafficEvent 7] /\
  pose_cb (pose_on_x 2) (after [PoseEvent (pose_on_x 1); TrafficEvent 7]) =
    (after [PoseEvent (pose_on_x 1); TrafficEvent 7], [], Ret tt) /\
  exists v,
    traffic_cb 7 (after [PoseEvent (pose_on_x 1); TrafficEvent 7]) =
      (after [PoseEvent (pose_on_x 1); TrafficEvent 7], [TlDistance v],
       Ret tt) /\
    (0 <= 7 -> v = (-1)%float).
Proof.
  assert (H : Forall loads_nothing [PoseEvent (pose_on_x 1); TrafficEvent 7])
    by (repeat constructor).
  exact (conj H (conj (proj1 (events_before_track _ H) (pose_on_x 2))
                      (proj2 (events_before_track _ H) 7))).
Defined.

(** ** The nearest-waypoint search *)

(** C7, counterexample.  On three waypoints at x = 0, 1, 2, with no
    sticky index and no jump, the whole track is searched.  For a pose at
    x = 0 the nearest index is 0 and the sticky index is left unset; for
    a pose at x = 1 the nearest index is 1 and becomes the sticky
    index. *)
Lemma full_search_boundary_unsets_sticky_index :
  prev_index (after [TrackEvent line3]) = -1 /\
  jumped 1 (mkPoint 0 0 0) (prev_pt (after [TrackEvent line3])) = false /\
  nearest_waypoint (pose_on_x 0) (after [TrackEvent line3]) =
    (set_prev_index (-1) (after [TrackEvent line3]), [], Ret 0) /\
  nearest_waypoint (pose_on_x 1) (after [TrackEvent line3]) =
    (set_prev_pt (mkPoint 1 0 0) (set_prev_index 1 (after [TrackEvent line3])),
     [], Ret 1).
Proof. repeat split; vm_compute; reflexivity. Qed.

(** C7, amended.  Whatever range [lo, hi) is searched, the bounded window
    around a sticky index that survived the reset test or else the whole
    track, [nearest_waypoint] returns an index of that range, and the
    sticky index is unset when that index is the first or the last of the
    range and is the returned index otherwise.  In particular a search of
    the whole track that returns index 0 or n - 1 unsets the sticky
    index. *)
Theorem nearest_waypoint_boundary st p avg :
  avg_wp_dist st = Some avg ->
  let ppt := pose_to_point p in
  let sticky := if jumped avg ppt (prev_pt st) then -1 else prev_index st in
  let n := len (wps st) in
  let lo := if sticky >? -1 then Z.max 0 (sticky - 5) else 0 in
  let hi := if sticky >? -1 then Z.min n (sticky + 200 + 1) else n in
  lo < hi ->
  exists s1 mini,
    nearest_waypoint p st = (s1, [], Ret mini) /\
    lo <= mini < hi /\
    prev_index s1 = (if (mini =? lo) || (mini =? hi - 1) then -1 else mini) /\
    (sticky <= -1 -> mini = 0 \/ mini = n - 1 -> prev_index s1 = -1).
Proof.
  intros Havg ppt sticky n lo hi Hlt.
  destruct (nearest_waypoint_run st p avg Havg Hlt) as (m & [Hm _] & _ & E).
  fold ppt sticky n lo hi in Hm, E.
  eexists. exists m. split; [exact E|]. split; [exact Hm|].
  cbn [prev_index]. split; [reflexivity|].
  intros Hs Hb. subst lo hi.
  destruct (Z.gtb_spec sticky (-1)) as [C|_]; [lia|].
  destruct Hb as [-> | ->].
  - reflexivity.
  - rewrite Z.eqb_refl, orb_true_r. reflexivity.
Qed.

(** C7, witness: three waypoints and a pose at x = 2. *)
Lemma nearest_waypoint_boundary_witness :
  avg_wp_dist (after [TrackEvent line3]) = Some 1%float /\
  0 < len (wps (after [TrackEvent line3])) /\
  exists s1 mini,
    nearest_waypoint (pose_on_x 2) (after [TrackEvent line3]) =
      (s1, [], Ret mini) /\
    0 <= mini < 3 /\
    prev_index s1 = (if (mini =? 0) || (mini =? 3 - 1) then -1 else mini) /\
    (-1 <= -1 -> mini = 0 \/ mini = 3 - 1 -> prev_index s1 = -1).
Proof.
  assert (H1 : avg_wp_dist (after [TrackEvent line3]) = Some 1%float)
    by (vm_compute; reflexivity).
  assert (H2 : 0 < len (wps (after [TrackEvent line3])))
    by (vm_compute; reflexivity).
  exact (conj H1 (conj H2
    (nearest_waypoint_boundary (after [TrackEvent line3]) (pose_on_x 2)
       1%float H1 H2))).
Defined.

(** C8.  On a loaded track, when the squared distance from the last
    recorded position exceeds .5 * avg_wp_dist * 200 the search runs over
    every index of the track, so no waypoint of the track is strictly
    nearer than the one returned; otherwise, with a sticky index [i] of
    the track, it runs over the indices from max(0, i - 5) up to
    min(n, i + 200 + 1) exclusive and returns one of them than which none
    of them is strictly nearer. *)
Theorem nearest_waypoint_search st p avg :
  avg_wp_dist st = Some avg ->
  wps st <> [] ->
  let ppt := pose_to_point p in
  let n := len (wps st) in
  (jumped avg ppt (prev_pt st) = true ->
   exists s1 mini,
     nearest_waypoint p st = (s1, [], Ret mini) /\
     nearest_scan (wps st) ppt (py_range 0 n) (-1) 0%float =
       Ret (mini, dist_sq_at (wps st) ppt mini) /\
     nearest_in (wps st) ppt 0 n mini) /\
  (jumped avg ppt (prev_pt st) = false ->
   0 <= prev_index st < n ->
   let lo := Z.max 0 (prev_index st - 5) in
   let hi := Z.min n (prev_index st + 200 + 1) in
   exists s1 mini,
     nearest_waypoint p st = (s1, [], Ret mini) /\
     nearest_scan (wps st) ppt (py_range lo hi) (-1) 0%float =
       Ret (mini, dist_sq_at (wps st) ppt mini) /\
     nearest_in (wps st) ppt lo hi mini).
Proof.
  intros Havg Hne ppt n.
  assert (Hn : 0 < n).
  { pose proof (len_nonneg (wps st)). pose proof (len_nil_iff (wps st)).
    subst n. destruct (Z.eq_dec (len (wps st)) 0); [tauto|lia]. }
  pose proof (nearest_waypoint_run st p avg Havg) as R.
  fold ppt n in R. cbv zeta in R. split.
  - intros J. rewrite J in R. change (-1 >? -1) with false in R.
    cbv iota in R. destruct (R Hn) as (m & Hm & Es & E).
    eexists. exists m. split; [exact E|]. now split.
  - intros J Hp lo hi. rewrite J in R.
    destruct (Z.gtb_spec (prev_index st) (-1)) as [_|C]; [|lia].
    fold lo hi in R.
    assert (Hlt : lo < hi) by (subst lo hi; lia).
    destruct (R Hlt) as (m & Hm & Es & E).
    eexists. exists m. split; [exact E|]. now split.
Qed.

(** C8, witness: 300 waypoints one unit apart and the sticky index at
    250.  A pose that jumps to x = 3 finds the waypoint of index 3,
    although the window around 250 starts at 245; a pose at x = 251 does
    not jump and is searched for in the window from 245 to 300. *)
Lemma nearest_waypoint_search_witness :
  avg_wp_dist cruising = Some 1%float /\
  wps cruising <> [] /\
  prev_index cruising = 250 /\
  (jumped 1 (mkPoint 3 0 0) (prev_pt cruising) = true /\
   (exists s1 mini,
      nearest_waypoint (pose_on_x 3) cruising = (s1, [], Ret mini) /\
      nearest_scan (wps cruising) (mkPoint 3 0 0) (py_range 0 300) (-1)
        0%float = Ret (mini, dist_sq_at (wps cruising) (mkPoint 3 0 0) mini) /\
      nearest_in (wps cruising) (mkPoint 3 0 0) 0 300 mini) /\
   snd (nearest_waypoint (pose_on_x 3) cruising) = Ret 3 /\
   3 < Z.max 0 (250 - 5)) /\
  (jumped 1 (mkPoint 251 0 0) (prev_pt cruising) = false /\
   0 <= prev_index cruising < 300 /\
   (exists s1 mini,
      nearest_waypoint (pose_on_x 251) cruising = (s1, [], Ret mini) /\
      nearest_scan (wps cruising) (mkPoint 251 0 0) (py_range 245 300) (-1)
        0%float =
        Ret (mini, dist_sq_at (wps cruising) (mkPoint 251 0 0) mini) /\
      nearest_in (wps cruising) (mkPoint 251 0 0) 245 300 mini) /\
   snd (nearest_waypoint (pose_on_x 251) cruising) = Ret 251).
Proof.
  assert (H1 : avg_wp_dist cruising = Some 1%float)
    by (vm_compute; reflexivity).
  assert (H2 : wps cruising <> []) by (vm_compute; discriminate).
  assert (H3 : jumped 1 (mkPoint 3 0 0) (prev_pt cruising) = true)
    by (vm_compute; reflexivity).
  assert (H4 : jumped 1 (mkPoint 251 0 0) (prev_pt cruising) = false)
    by (vm_compute; reflexivity).
  assert (H5 : 0 <= prev_index cruising < 300)
    by (vm_compute; split; [discriminate|reflexivity]).
  split; [exact H1|]. split; [exact H2|].
  split; [vm_compute; reflexivity|]. split.
  - split; [exact H3|]. split; [|split; [vm_compute; reflexivity|lia]].
    exact (proj1 (nearest_waypoint_search cruising (pose_on_x 3) 1%float
                    H1 H2) H3).
  - split; [exact H4|]. split; [exact H5|].
    split; [|vm_compute; reflexivity].
    exact (proj2 (nearest_waypoint_search cruising (pose_on_x 251) 1%float
                    H1 H2) H4 H5).
Defined.

(** ** The next waypoint *)

(** C4, counterexample.  On the closed track of three waypoints at
    x = 0, 1, 2 the pose at x = 1.6 is nearest to index 2 and
    [next_waypoint] returns index 0, the waypoint at x = 0.  On a track of
    two waypoints the previous and the next waypoint coincide and
    [next_waypoint] raises [ZeroDivisionError]. *)
Lemma next_waypoint_wraps_or_raises :
  snd (nearest_waypoint (pose_on_x f1_6) (after [TrackEvent line3])) = Ret 2 /\
  snd (next_waypoint (pose_on_x f1_6) (after [TrackEvent line3])) = Ret 0 /\
  point_at (waypoints line3) 0 = mkPoint 0 0 0 /\
  point_at (waypoints line3) 2 = mkPoint 2 0 0 /\
  snd (nearest_waypoint (pose_on_x f1_6) (after [TrackEvent line2])) = Ret 1 /\
  snd (next_waypoint (pose_on_x f1_6) (after [TrackEvent line2])) =
    Raise ZeroDivisionError.
Proof. repeat split; vm_compute; reflexivity. Qed.

(** C4, amended.  When [nearest_waypoint] returns an index [cur] of the
    track and both projection ratios are defined (the previous and the
    next waypoint are at different positions), [next_waypoint] returns
    (cur + 1) mod n if eRatio > cRatio and [cur] otherwise. *)
Theorem next_waypoint_advances st p s1 o cur eR cR :
  nearest_waypoint p st = (s1, o, Ret cur) ->
  let ws := wps st in
  let n := len ws in
  0 <= cur < n ->
  let prev := (cur + n - 1) mod n in
  let nxt := (cur + 1) mod n in
  let ept := pose_to_point p in
  line_ratio (point_at ws prev) ept (point_at ws nxt) = Ret eR ->
  line_ratio (point_at ws prev) (point_at ws cur) (point_at ws nxt) = Ret cR ->
  next_waypoint p st =
    (s1, [], Ret (if PrimFloat.ltb cR eR then nxt else cur)).
Proof.
  intros Hn ws n Hc prev nxt ept He Hcr.
  destruct (tracker_only_nearest_waypoint p _ _ _ _ Hn) as (-> & Hw & _).
  unfold next_waypoint. rewrite (bind_quiet _ _ _ _ _ Hn). quiet.
  rewrite Hw. fold ws. fold n.
  destruct (Z.eqb_spec n 0) as [C|_]; [lia|].
  destruct (Z.ltb_spec cur 0) as [C|_]; [lia|].
  destruct (Z.gtb_spec cur (n - 1)) as [C|_]; [lia|].
  cbn [orb].
  assert (Hp : 0 <= prev < n) by (apply Z.mod_pos_bound; lia).
  assert (Hx : 0 <= nxt < n) by (apply Z.mod_pos_bound; lia).
  destruct (py_index_inside ws cur Hc) as (wc & Ec & _).
  destruct (py_index_inside ws prev Hp) as (wp & Ep & _).
  destruct (py_index_inside ws nxt Hx) as (wn & Ex & _).
  rewrite (point_at_index _ _ _ Ec), (point_at_index _ _ _ Ep),
    (point_at_index _ _ _ Ex) in *.
  fold prev nxt. rewrite Ec. quiet. rewrite Ep. quiet. rewrite Ex. quiet.
  fold ept. rewrite He. quiet. rewrite Hcr. quiet.
  now destruct (PrimFloat.ltb cR eR).
Qed.

(** C4, witness: four waypoints at x = 0, 1, 2, 3 and a pose at x = 1.6;
    the nearest index is 2, eRatio = 0.6 (rounded), cRatio = 1, and the
    result is 2, the waypoint at x = 2. *)
Lemma next_waypoint_advances_witness :
  nearest_waypoint (pose_on_x f1_6) (after [TrackEvent line4]) =
    (set_prev_pt (mkPoint f1_6 0 0)
       (set_prev_index 2 (after [TrackEvent line4])), [], Ret 2) /\
  0 <= 2 < len (wps (after [TrackEvent line4])) /\
  line_ratio (mkPoint 1 0 0) (mkPoint f1_6 0 0) (mkPoint 3 0 0) =
    Ret (f1_6 - 1)%float /\
  line_ratio (mkPoint 1 0 0) (mkPoint 2 0 0) (mkPoint 3 0 0) = Ret 1%float /\
  next_waypoint (pose_on_x f1_6) (after [TrackEvent line4]) =
    (set_prev_pt (mkPoint f1_6 0 0)
       (set_prev_index 2 (after [TrackEvent line4])), [], Ret 2).
Proof.
  assert (H1 : nearest_waypoint (pose_on_x f1_6) (after [TrackEvent line4]) =
    (set_prev_pt (mkPoint f1_6 0 0)
       (set_prev_index 2 (after [TrackEvent line4])), [], Ret 2))
    by (vm_compute; reflexivity).
  assert (H2 : 0 <= 2 < len (wps (after [TrackEvent line4])))
    by (vm_compute; split; [discriminate|reflexivity]).
  assert (H3 : line_ratio (mkPoint 1 0 0) (mkPoint f1_6 0 0) (mkPoint 3 0 0) =
               Ret (f1_6 - 1)%float) by (vm_compute; reflexivity).
  assert (H4 : line_ratio (mkPoint 1 0 0) (mkPoint 2 0 0) (mkPoint 3 0 0) =
               Ret 1%float) by (vm_compute; reflexivity).
  repeat (split; [assumption|]).
  exact (next_waypoint_advances _ _ _ _ _ _ _ H1 H2 H3 H4).
Defined.

(** * Further properties *)

(** ** More facts on ranges, indices and floats *)

Lemma py_range_empty a b : b <= a -> py_range a b = [].
Proof.
  intros H. unfold py_range.
  replace (Z.to_nat (b - a)) with 0%nat by lia. reflexivity.
Qed.

Lemma py_range_snoc a b : a <= b -> py_range a (b + 1) = py_range a b ++ [b].
Proof.
  intros H. unfold py_range.
  replace (Z.to_nat (b + 1 - a)) with (Z.to_nat (b - a) + 1)%nat by lia.
  rewrite seq_app, map_app. simpl. do 2 f_equal. lia.
Qed.

Lemma py_range_cons a b : a < b -> py_range a b = a :: py_range (a + 1) b.
Proof.
  intros H. unfold py_range.
  replace (Z.to_nat (b - a)) with (S (Z.to_nat (b - (a + 1)))) by lia.
  simpl. f_equal; [lia|]. rewrite <- seq_shift, map_map.
  apply map_ext. intros k. lia.
Qed.

Lemma py_range_sorted a b : StronglySorted Z.lt (py_range a b).
Proof.
  unfold py_range. generalize (Z.to_nat (b - a)) as n. intros n.
  revert a. induction n as [|n IH]; intros a; [constructor|].
  simpl. constructor.
  - rewrite <- seq_shift, map_map.
    replace (map (fun k => a + Z.of_nat (S k)) (List.seq 0 n))
      with (map (fun k => (a + 1) + Z.of_nat k) (List.seq 0 n))
      by (apply map_ext; intros k; lia).
    apply IH.
  - apply Forall_forall. intros j Hj. apply in_map_iff in Hj.
    destruct Hj as (k & <- & Hk). apply in_seq in Hk. lia.
Qed.

Lemma py_index_raises {A : Type} (l : list A) i e :
  py_index l i = Raise e -> e = IndexError.
Proof.
  unfold py_index. cbv zeta. destruct (_ <? 0); [congruence|].
  destruct (nth_error l _); congruence.
Qed.

Lemma py_index_raises_beyond {A : Type} (l : list A) i e :
  0 <= i -> py_index l i = Raise e -> e = IndexError /\ len l <= i.
Proof.
  intros Hi H. split; [exact (py_index_raises _ _ _ H)|].
  destruct (Z_lt_ge_dec i (len l)) as [Hlt|Hge]; [|lia].
  destruct (py_index_inside l i) as (a & E & _); [lia|]. congruence.
Qed.

Lemma py_index_outside {A : Type} (l : list A) i :
  ~ (- len l <= i < len l) -> py_index l i = Raise IndexError.
Proof.
  intros H. unfold py_index. cbv zeta.
  destruct (Z.ltb_spec i 0) as [Hi|Hi].
  - destruct (Z.ltb_spec (i + len l) 0) as [_|C]; [reflexivity|lia].
  - destruct (Z.ltb_spec i 0) as [C|_]; [lia|].
    destruct (nth_error l (Z.to_nat i)) eqn:E; [|reflexivity].
    assert (Z.to_nat i < length l)%nat
      by (apply nth_error_Some; congruence).
    unfold len in H. lia.
Qed.

Lemma py_index_within {A : Type} (l : list A) i :
  - len l <= i < len l ->
  exists a, py_index l i = Ret a /\
            nth_error l (Z.to_nat (i mod len l)) = Some a.
Proof.
  intros H. pose proof (len_nonneg l) as Hl.
  destruct (Z.ltb_spec i 0) as [Hi|Hi].
  - destruct (py_index_inside l (i + len l)) as (a & E & Hn); [lia|].
    exists a. split.
    + unfold py_index in *. cbv zeta in *.
      destruct (Z.ltb_spec i 0) as [_|C]; [|lia].
      destruct (Z.ltb_spec (i + len l) 0) as [C|_]; [lia|].
      destruct (Z.ltb_spec (i + len l) 0) as [C|_]; [lia|]. exact E.
    + replace (i mod len l) with (i + len l); [exact Hn|].
      apply Z.mod_unique with (q := -1); lia.
  - destruct (py_index_inside l i) as (a & E & Hn); [lia|].
    exists a. split; [exact E|]. now rewrite Z.mod_small by lia.
Qed.

Lemma SFeqb_ltb_trans (a b c : spec_float) :
  SFeqb a b = true -> SFltb b c = true -> SFltb a c = true.
Proof.
  unfold SFeqb, SFltb, SFcompare.
  destruct a as [sa | sa | | sa ma ea]; destruct b as [sb | sb | | sb mb eb];
    destruct c as [sc | sc | | sc mc ec];
    try destruct sa; try destruct sb; try destruct sc;
    try reflexivity; try discriminate.
  all: fold (Pos.compare ma mb); fold (Pos.compare mb mc);
    fold (Pos.compare ma mc).
  all: destruct (Z.compare_spec ea eb); destruct (Z.compare_spec eb ec);
    destruct (Z.compare_spec ea ec); try lia; try reflexivity;
    try discriminate;
    destruct (Pos.compare_spec ma mb); destruct (Pos.compare_spec mb mc);
    destruct (Pos.compare_spec ma mc); simpl; try lia; try reflexivity;
    try discriminate.
Qed.

Lemma float_eqb_ltb_trans (a b c : float) :
  PrimFloat.eqb a b = true -> PrimFloat.ltb b c = true ->
  PrimFloat.ltb a c = true.
Proof.
  rewrite FloatAxioms.eqb_spec, !FloatAxioms.ltb_spec.
  apply SFeqb_ltb_trans.
Qed.

Lemma float_ltb_not_eqb (a b : float) :
  PrimFloat.ltb b a = true -> PrimFloat.eqb a b = false.
Proof.
  intros H. destruct (PrimFloat.eqb a b) eqn:E; [|reflexivity].
  pose proof (float_eqb_ltb_trans _ _ _ E H) as C.
  rewrite float_ltb_irrefl in C. discriminate.
Qed.

Lemma SFsqrt_not_negative prec emax f : not_negative (SFsqrt prec emax f).
Proof.
  destruct f as [s|s| |s m e]; try destruct s; try exact I; try reflexivity.
  unfold SFsqrt. destruct (SFsqrt_core_binary prec emax _ e) as [[mz ez] lz].
  apply binary_round_aux_sign.
Qed.

Lemma SFdiv_not_negative prec emax f g :
  not_negative f -> plus_signed g -> not_negative (SFdiv prec emax f g).
Proof.
  destruct f as [s|s| |s m e]; destruct g as [t|t| |t n e'];
    intros Hf Hg; simpl in Hf, Hg; subst; try exact I; try reflexivity.
  unfold SFdiv. cbn [xorb].
  match goal with
  | |- context [SFdiv_core_binary ?a ?b ?c ?d ?u ?v] =>
      destruct (SFdiv_core_binary a b c d u v) as [[mz ez] lz]
  end.
  apply binary_round_aux_sign.
Qed.

Lemma binary_round_aux_plus prec emax m e l :
  plus_signed (binary_round_aux prec emax false m e l).
Proof.
  unfold binary_round_aux.
  destruct (shr_fexp prec emax m e l) as [mrs' e'].
  destruct (shr_fexp prec emax _ e' loc_Exact) as [mrs'' e''].
  destruct (shr_m mrs'') as [|q|q]; simpl; auto.
  destruct (e'' <=? emax - prec); simpl; auto.
Qed.

Lemma float_of_int_plus_signed i :
  0 <= i -> plus_signed (Prim2SF (float_of_int i)).
Proof.
  intros H. unfold float_of_int.
  destruct (Z.ltb_spec i 0) as [C|_]; [lia|].
  rewrite FloatAxioms.of_uint63_spec.
  pose proof (Uint63.to_Z_bounded (Uint63.of_Z i)) as [Hb _].
  unfold binary_normalize.
  destruct (Uint63.to_Z (Uint63.of_Z i)) as [|q|q]; [reflexivity| |lia].
  unfold binary_round. destruct (shl_align q 0 _) as [mz ez].
  apply binary_round_aux_plus.
Qed.

Lemma float_not_negative v :
  not_negative (Prim2SF v) -> PrimFloat.ltb v 0 = false.
Proof.
  intros H. rewrite FloatAxioms.ltb_spec.
  change (Prim2SF 0) with (S754_zero false). now apply SFltb_zero.
Qed.

Lemma step_not_negative s a b :
  not_negative (Prim2SF s) ->
  not_negative (Prim2SF (s + PrimFloat.sqrt (point_dist_sq a b))%float).
Proof.
  intros H. rewrite FloatAxioms.add_spec, FloatAxioms.sqrt_spec.
  apply SFadd_not_negative; [exact H|apply SFsqrt_not_negative].
Qed.

Lemma path_lengths_not_negative pts :
  forall prev s,
    not_negative (Prim2SF s) ->
    Forall (fun v => not_negative (Prim2SF v)) (path_lengths prev s pts).
Proof.
  induction pts as [|p pts IH]; intros prev s H; simpl; constructor.
  - now apply step_not_negative.
  - apply IH. now apply step_not_negative.
Qed.

Lemma gap_sum_not_negative pts :
  forall prev acc,
    not_negative (Prim2SF acc) -> not_negative (Prim2SF (gap_sum acc prev pts)).
Proof.
  induction pts as [|p pts IH]; intros prev acc H; simpl; [exact H|].
  apply IH. now apply step_not_negative.
Qed.



Lemma loop_lengths_not_negative ws :
  Forall (fun v => not_negative (Prim2SF v)) (loop_lengths ws).
Proof.
  unfold loop_lengths. destruct (map waypoint_to_point ws); [constructor|].
  apply path_lengths_not_negative. exact I.
Qed.

Lemma bind_raise {A B : Type} (m : M A) (k : A -> M B) s s1 o1 e :
  m s = (s1, o1, Raise e) -> bind m k s = (s1, o1, Raise e).
Proof. intros H. unfold bind. now rewrite H. Qed.

Lemma spin_app es1 es2 s :
  spin (es1 ++ es2) s =
  (fst (spin es2 (fst (spin es1 s))),
   snd (spin es1 s) ++ snd (spin es2 (fst (spin es1 s)))).
Proof.
  revert s. induction es1 as [|e es1 IH]; intros s.
  - simpl. now destruct (spin es2 s).
  - simpl. destruct (dispatch e s) as [[s1 o1] r]. rewrite IH.
    destruct (spin es1 s1) as [s2 o2]. simpl.
    now rewrite app_assoc.
Qed.

Lemma after_snoc es e : after (es ++ [e]) = fst (fst (dispatch e (after es))).
Proof.
  unfold after. rewrite spin_app. cbn [fst spin].
  destruct (dispatch e (fst (spin es init))) as [[s1 o1] r]. reflexivity.
Qed.

(** ** Ties in the search loop *)

Section Ties.

Variable ws : list Waypoint.
Variable ppt : Point.

Local Abbreviation dsq := (dist_sq_at ws ppt).

(** On an increasing range, whatever the loop ends with in the range is
    the first index of the range at its distance. *)
Lemma nearest_scan_first rg :
  forall mini mindist,
    0 <= mini ->
    (forall i, In i rg -> 0 <= i < len ws) ->
    StronglySorted Z.lt rg ->
    forall m d,
      nearest_scan ws ppt rg mini mindist = Ret (m, d) ->
      (m = mini /\ d = mindist) \/
      (In m rg /\ d = dsq m /\ PrimFloat.ltb d mindist = true /\
       forall j, In j rg -> j < m -> PrimFloat.eqb (dsq j) d = false).
Proof.
  induction rg as [|i rg IH]; intros mini mindist Hm Hv Hs m d.
  - simpl. intros H. injection H as <- <-. now left.
  - rewrite nearest_scan_step by (apply Hv; now left).
    destruct (Z.ltb_spec mini 0) as [C|_]; [lia|]. cbn [orb].
    assert (Hi : 0 <= i) by (apply Hv; now left).
    assert (Hv' : forall k, In k rg -> 0 <= k < len ws)
      by (intros k Hk; apply Hv; now right).
    inversion Hs as [|? ? Hs' Hall]; subst.
    rewrite Forall_forall in Hall.
    destruct (PrimFloat.ltb (dsq i) mindist) eqn:E; intros H.
    + right.
      destruct (IH i (dsq i) Hi Hv' Hs' m d H)
        as [[-> ->]|(Hin & -> & Hlt & Hfirst)].
      * split; [now left|]. split; [reflexivity|]. split; [exact E|].
        intros j [<-|Hj] Hjm; [lia|]. specialize (Hall j Hj). lia.
      * split; [now right|]. split; [reflexivity|].
        split; [exact (float_ltb_trans _ _ _ Hlt E)|].
        intros j [<-|Hj] Hjm; [|now apply Hfirst].
        now apply float_ltb_not_eqb.
    + destruct (IH mini mindist Hm Hv' Hs' m d H)
        as [Hc|(Hin & -> & Hlt & Hfirst)]; [now left|].
      right. split; [now right|]. split; [reflexivity|].
      split; [exact Hlt|].
      intros j [<-|Hj] Hjm; [|now apply Hfirst].
      destruct (PrimFloat.eqb (dsq i) (dsq m)) eqn:Eq; [|reflexivity].
      rewrite (float_eqb_ltb_trans _ _ _ Eq Hlt) in E. discriminate.
Qed.

End Ties.

Lemma nearest_scan_range_first ws ppt lo hi m d :
  0 <= lo -> hi <= len ws ->
  nearest_scan ws ppt (py_range lo hi) (-1) 0%float = Ret (m, d) ->
  forall j, lo <= j < m ->
    PrimFloat.eqb (dist_sq_at ws ppt j) (dist_sq_at ws ppt m) = false.
Proof.
  intros Hlo Hhi H j Hj.
  assert (Hv : forall i, In i (py_range lo hi) -> 0 <= i < len ws)
    by (intros i Hi; apply py_range_In in Hi; lia).
  pose proof (py_range_sorted lo hi) as Hs.
  destruct (py_range lo hi) as [|i rg] eqn:Er.
  - simpl in H. injection H as <- _. lia.
  - rewrite nearest_scan_step in H by (apply Hv; now left).
    change (-1 <? 0) with true in H. cbn [orb] in H.
    assert (Hi : lo <= i < hi) by (apply py_range_In; rewrite Er; now left).
    assert (Hrg : forall k, In k rg -> lo <= k < hi)
      by (intros k Hk; apply py_range_In; rewrite Er; now right).
    inversion Hs as [|? ? Hs' Hall]; subst. rewrite Forall_forall in Hall.
    assert (Hil : i = lo).
    { assert (Hin : In lo (i :: rg))
        by (rewrite <- Er; apply py_range_In; lia).
      destruct Hin as [?|Hin]; [congruence|].
      specialize (Hall lo Hin). lia. }
    destruct (nearest_scan_first ws ppt rg i (dist_sq_at ws ppt i)
                ltac:(lia) ltac:(intros k Hk; apply Hv; now right) Hs' m d H)
      as [[-> ->]|(Hin & -> & Hlt & Hfirst)]; [lia|].
    destruct (Z.eq_dec j i) as [->|Hne].
    + now apply float_ltb_not_eqb.
    + apply Hfirst; [|lia].
      assert (Hjr : In j (i :: rg))
        by (rewrite <- Er; apply py_range_In; specialize (Hrg m Hin); lia).
      destruct Hjr as [?|?]; [congruence|assumption].
Qed.

(** ** The callbacks case by case *)

(** The searched range is empty: the scan finds nothing, and reading
    [rg[0]] raises after the sticky index was set to -1. *)
Lemma nearest_waypoint_nothing st p avg :
  avg_wp_dist st = Some avg ->
  let ppt := pose_to_point p in
  let sticky := if jumped avg ppt (prev_pt st) then -1 else prev_index st in
  let n := len (wps st) in
  let lo := if sticky >? -1 then Z.max 0 (sticky - 5) else 0 in
  let hi := if sticky >? -1 then Z.min n (sticky + 200 + 1) else n in
  hi <= lo ->
  nearest_waypoint p st =
    (mkNode (wps st) (wp_ss st) ppt (-1) (next_pt st) (avg_wp_dist st),
     [], Raise IndexError).
Proof.
  intros Havg ppt sticky n lo hi Hle.
  unfold nearest_waypoint. fold ppt. quiet. rewrite Havg. quiet.
  change (PrimFloat.ltb (0.5 * avg * float_of_int wp_ahead)%float
            (point_dist_sq ppt (prev_pt st)))
    with (jumped avg ppt (prev_pt st)).
  assert (Hs : exists s0,
    (if jumped avg ppt (prev_pt st)
     then modify (set_prev_index (-1)) else ret tt) st = (s0, [], Ret tt) /\
    wps s0 = wps st /\ wp_ss s0 = wp_ss st /\ next_pt s0 = next_pt st /\
    prev_index s0 = sticky /\ avg_wp_dist s0 = Some avg).
  { subst sticky. destruct (jumped avg ppt (prev_pt st)); eexists;
      (split; [reflexivity|]); simpl; auto. }
  destruct Hs as (s0 & Hs & Hw & Hss & Hnp & Hpi & Hav).
  rewrite (bind_quiet _ _ _ _ _ Hs). quiet. quiet.
  rewrite search_range_bounds. cbn [prev_index wps set_prev_pt].
  rewrite Hpi, Hw. fold n. fold lo hi.
  rewrite (py_range_empty lo hi Hle). cbn [nearest_scan]. quiet. quiet.
  unfold bind, lift, modify, set_prev_index, set_prev_pt. simpl.
  rewrite Hw, Hss, Hnp, Hav. reflexivity.
Qed.

Lemma line_ratio_cases a b c :
  line_ratio a b c = Raise ZeroDivisionError \/
  exists v, line_ratio a b c = Ret v /\
            forall b', exists v', line_ratio a b' c = Ret v'.
Proof.
  unfold line_ratio. rewrite point_dist_returns. cbn [rbind]. unfold py_div.
  destruct (PrimFloat.eqb _ 0); [now left|right].
  eexists. split; [reflexivity|]. intros b'. eexists. reflexivity.
Qed.

(** With the average spacing set, [next_waypoint] returns an index of the
    track, or raises [IndexError] (nothing to search, the sticky index
    now unset) or [ZeroDivisionError] (in [line_ratio]); it has recorded
    the position, and the sticky index it leaves is below the track
    length. *)
Lemma next_waypoint_outcome st p avg :
  avg_wp_dist st = Some avg ->
  exists s1 r,
    next_waypoint p st = (s1, [], r) /\
    prev_pt s1 = pose_to_point p /\
    prev_index s1 < len (wps st) /\
    ((exists v, r = Ret v /\ 0 <= v < len (wps st)) \/
     (r = Raise IndexError /\ prev_index s1 = -1 /\
      len (wps st) <= Z.max 0 (prev_index st - 5)) \/
     r = Raise ZeroDivisionError).
Proof.
  intros Havg.
  pose proof (nearest_waypoint_run st p avg Havg) as Hrun.
  pose proof (nearest_waypoint_nothing st p avg Havg) as Hnone.
  cbv zeta in Hrun, Hnone.
  set (sticky := if jumped avg (pose_to_point p) (prev_pt st)
                 then -1 else prev_index st) in *.
  set (lo := if sticky >? -1 then Z.max 0 (sticky - 5) else 0) in *.
  set (hi := if sticky >? -1 then Z.min (len (wps st)) (sticky + 200 + 1)
             else len (wps st)) in *.
  pose proof (len_nonneg (wps st)) as Hlen.
  assert (Hlo : 0 <= lo) by (subst lo; destruct (sticky >? -1); lia).
  assert (Hhi : hi <= len (wps st))
    by (subst hi; destruct (sticky >? -1); lia).
  destruct (Z_lt_ge_dec lo hi) as [Hlt|Hge].
  - destruct (Hrun Hlt) as (m & [Hm _] & _ & E). clear Hrun Hnone.
    set (s1 := mkNode _ _ _ _ _ _) in E.
    assert (Hw : wps s1 = wps st) by reflexivity.
    assert (Hpi : prev_index s1 < len (wps st))
      by (subst s1; cbn [prev_index]; destruct (_ || _); lia).
    exists s1. unfold next_waypoint. rewrite (bind_quiet _ _ _ _ _ E). quiet.
    rewrite Hw. set (n := len (wps st)) in *.
    destruct (Z.eqb_spec n 0) as [C|_]; [lia|].
    destruct (Z.ltb_spec m 0) as [C|_]; [lia|].
    destruct (Z.gtb_spec m (n - 1)) as [C|_]; [lia|].
    cbn [orb].
    assert (Hp : 0 <= (m + n - 1) mod n < n) by (apply Z.mod_pos_bound; lia).
    assert (Hx : 0 <= (m + 1) mod n < n) by (apply Z.mod_pos_bound; lia).
    destruct (py_index_inside (wps st) m) as (wc & -> & _); [lia|]. quiet.
    destruct (py_index_inside (wps st) _ Hp) as (wp & -> & _). quiet.
    destruct (py_index_inside (wps st) _ Hx) as (wn & -> & _). quiet.
    destruct (line_ratio_cases (waypoint_to_point wp) (pose_to_point p)
                (waypoint_to_point wn)) as [Ez|(v & Ev & Hall)].
    + rewrite Ez. eexists. split; [reflexivity|].
      split; [reflexivity|]. split; [exact Hpi|]. now right; right.
    + rewrite Ev. quiet.
      destruct (Hall (waypoint_to_point wc)) as (v' & ->). quiet.
      destruct (PrimFloat.ltb v' v); eexists; (split; [reflexivity|]);
        (split; [reflexivity|]); (split; [exact Hpi|]);
        left; eexists; (split; [reflexivity|]); lia.
  - eexists. eexists. unfold next_waypoint.
    rewrite (bind_raise _ _ _ _ _ _ (Hnone ltac:(lia))).
    split; [reflexivity|]. split; [reflexivity|].
    cbn [prev_index]. split; [lia|]. right; left. split; [reflexivity|].
    split; [reflexivity|].
    subst lo hi sticky. revert Hge.
    destruct (jumped avg (pose_to_point p) (prev_pt st));
      [change (-1 >? -1) with false; cbv iota; lia|].
    destruct (Z.gtb_spec (prev_index st) (-1)); lia.
Qed.

(** A pose event never touches the track, the table or the average
    spacing; it publishes nothing, or the lookahead window of a valid
    next index followed by that index, which it has recorded in
    [next_pt]. *)
Lemma pose_cb_outputs msg s s' o r :
  pose_cb msg s = (s', o, r) ->
  wps s' = wps s /\ wp_ss s' = wp_ss s /\ avg_wp_dist s' = avg_wp_dist s /\
  (o = [] \/
   exists nxt,
     0 <= nxt < len (wps s) /\ r = Ret tt /\ next_pt s' = nxt /\
     o = [FinalWaypoints (mkLane "/world" (lookahead (wps s) nxt));
          NextWaypoint nxt]).
Proof.
  intros H. destruct (pose_cb_frame _ _ _ _ _ H) as (Hw & Hs & Ha).
  repeat (split; [assumption|]).
  revert H. unfold pose_cb. rewrite (bind_quiet get _ s s s eq_refl).
  destruct (len (wps s) =? 0); [intros H; injection H as _ <- _; now left|].
  destruct (negb _); [intros H; injection H as _ <- _; now left|].
  unfold bind at 1.
  destruct (next_waypoint msg s) as [[s1 o1] [nxt|e]] eqn:En;
    destruct (tracker_only_next_waypoint msg _ _ _ _ En)
      as (-> & Hw1 & _).
  - quiet. destruct (Z.ltb_spec nxt 0) as [Hneg|Hpos].
    + intros H. injection H as _ <- _. now left.
    + quiet. unfold bind, publish. intros H. injection H as <- <- <-.
      right. exists nxt. cbn [wps set_next_pt next_pt]. rewrite Hw1.
      destruct (next_waypoint_result _ _ _ _ _ En) as [C|Hv]; [lia|].
      repeat split; try reflexivity; lia.
  - intros H. injection H as _ <- _. now left.
Qed.

Lemma lookahead_within ws nxt :
  0 <= nxt < len ws ->
  len (lookahead ws nxt) <= 240 /\
  forall w, In w (lookahead ws nxt) -> In w ws.
Proof.
  intros H. destruct (lookahead_spec ws nxt H) as [Hlen Hnth].
  split; [lia|]. intros w Hin.
  destruct (In_nth_error _ _ Hin) as (k & Hk).
  assert (Hlt : (k < length (lookahead ws nxt))%nat)
    by (apply nth_error_Some; rewrite Hk; discriminate).
  specialize (Hnth (Z.of_nat k)). rewrite Nat2Z.id in Hnth.
  rewrite Hnth in Hk by (unfold len; lia).
  exact (nth_error_In _ _ Hk).
Qed.

(** The three ways of a track-load event. *)
Lemma waypoints_cb_cases msg s :
  (len (waypoints msg) = len (wps s) /\
   waypoints_cb msg s = (s, [], Ret tt)) \/
  (len (waypoints msg) <> len (wps s) /\ waypoints msg = [] /\
   waypoints_cb msg s = (set_wps [] s, [], Raise IndexError)) \/
  (len (waypoints msg) <> len (wps s) /\ waypoints msg <> [] /\
   exists tbl a r,
     waypoints_cb msg s =
       (mkNode (waypoints msg) (wp_ss s ++ tbl) (prev_pt s) (prev_index s)
          (next_pt s) (Some a), [], r) /\
     len tbl = len (waypoints msg) + 1 /\
     (r = Ret tt \/ r = Raise ZeroDivisionError)).
Proof.
  destruct (Z.eq_dec (len (waypoints msg)) (len (wps s))) as [E|D].
  - left. split; [exact E|]. unfold waypoints_cb. quiet.
    rewrite E, Z.eqb_refl. reflexivity.
  - right. destruct (waypoints msg) as [|w ws] eqn:Ew.
    + left. split; [exact D|]. split; [reflexivity|].
      unfold waypoints_cb. quiet. rewrite Ew.
      destruct (Z.eqb_spec (len (@nil Waypoint)) (len (wps s))) as [C|_];
        [contradiction|].
      reflexivity.
    + right. split; [exact D|]. split; [discriminate|].
      rewrite <- Ew. apply waypoints_cb_loads; rewrite Ew;
        [exact D|discriminate].
Qed.

(** A pose event on a node that holds a track and its average
    spacing. *)
Lemma pose_cb_on_track msg s avg :
  wps s <> [] ->
  avg_wp_dist s = Some avg ->
  exists s' o r,
    pose_cb msg s = (s', o, r) /\
    prev_pt s' = pose_to_point msg /\
    prev_index s' < len (wps s) /\
    (r = Ret tt \/
     (o = [] /\ r = Raise IndexError /\ prev_index s' = -1 /\
      len (wps s) <= Z.max 0 (prev_index s - 5)) \/
     (o = [] /\ r = Raise ZeroDivisionError)).
Proof.
  intros Hne Havg.
  unfold pose_cb. rewrite (bind_quiet get _ s s s eq_refl).
  destruct (Z.eqb_spec (len (wps s)) 0) as [E0|_];
    [apply len_nil_iff in E0; contradiction|].
  rewrite Z.mod_1_r. cbn [Z.eqb negb].
  destruct (next_waypoint_outcome s msg avg Havg)
    as (s1 & r & E & Hpt & Hpi & Hr).
  destruct Hr as [(v & -> & Hv)|[(-> & Hm & Hs)| ->]].
  - rewrite (bind_quiet _ _ _ _ _ E). quiet.
    destruct (Z.ltb_spec v 0) as [C|_]; [lia|]. quiet.
    eexists. eexists. eexists. split; [reflexivity|].
    cbn [prev_pt prev_index set_next_pt].
    split; [exact Hpt|]. split; [exact Hpi|now left].
  - rewrite (bind_raise _ _ _ _ _ _ E).
    eexists. eexists. eexists. split; [reflexivity|].
    split; [exact Hpt|]. split; [exact Hpi|]. right; left. auto.
  - rewrite (bind_raise _ _ _ _ _ _ E).
    eexists. eexists. eexists. split; [reflexivity|].
    split; [exact Hpt|]. split; [exact Hpi|]. right; right. auto.
Qed.

Lemma traffic_cb_cases st d :
  exists o r,
    traffic_cb d st = (st, o, r) /\
    ((r = Ret tt /\ exists v, o = [TlDistance v]) \/
     (r = Raise IndexError /\ o = [])).
Proof.
  unfold traffic_cb, bind, get, lift, ret, publish.
  destruct ((next_pt st >=? 0) && _).
  - destruct (py_index (wp_ss st) _) as [a|e] eqn:Ea;
      [|rewrite (py_index_raises _ _ _ Ea); eexists; eexists;
        split; [reflexivity|now right]].
    destruct (py_index (wp_ss st) (next_pt st)) as [b|e] eqn:Eb;
      [|rewrite (py_index_raises _ _ _ Eb); eexists; eexists;
        split; [reflexivity|now right]].
    destruct (PrimFloat.ltb _ _).
    + destruct (py_index (wp_ss st) (len (wps st))) as [l|e] eqn:El;
        [|rewrite (py_index_raises _ _ _ El); eexists; eexists;
          split; [reflexivity|now right]].
      eexists. eexists. split; [reflexivity|]. left.
      split; [reflexivity|]. eexists. reflexivity.
    + eexists. eexists. split; [reflexivity|]. left.
      split; [reflexivity|]. eexists. reflexivity.
  - eexists. eexists. split; [reflexivity|]. left.
    split; [reflexivity|]. eexists. reflexivity.
Qed.

Lemma dispatch_on_track ws e s s' o r :
  ws <> [] ->
  keeps_track (len ws) e ->
  on_track ws s ->
  dispatch e s = (s', o, r) ->
  on_track ws s'.
Proof.
  intros Hne Hk (Hw & Hp & a & Ha). destruct e as [msg|msg|d];
    unfold dispatch; intros H.
  - destruct (pose_cb_frame _ _ _ _ _ H) as (Hw' & _ & Ha').
    destruct (pose_cb_on_track msg s a) as (s1 & o1 & r1 & E & _ & Hp' & _);
      [now rewrite Hw|exact Ha|].
    rewrite E in H. injection H as <- _ _.
    split; [congruence|]. split; [now rewrite <- Hw|].
    exists a. congruence.
  - simpl in Hk. rewrite <- Hw in Hk.
    destruct (waypoints_cb_cases msg s) as [[_ E]|[(D & _)|(D & _)]];
      try contradiction.
    rewrite E in H. injection H as <- _ _. split; [exact Hw|].
    split; [exact Hp|]. now exists a.
  - pose proof (traffic_cb_keeps_node s d) as Hr. rewrite H in Hr.
    simpl in Hr. subst s'. split; [exact Hw|]. split; [exact Hp|].
    now exists a.
Qed.

Lemma spin_on_track ws es :
  ws <> [] ->
  Forall (keeps_track (len ws)) es ->
  forall s, on_track ws s -> on_track ws (fst (spin es s)).
Proof.
  intros Hne. induction 1 as [|e es He _ IH]; intros s Hs; [exact Hs|].
  simpl. destruct (dispatch e s) as [[s1 o1] r] eqn:E.
  pose proof (IH s1 (dispatch_on_track _ _ _ _ _ _ Hne He Hs E)) as H.
  destruct (spin es s1) as [s2 o2]. exact H.
Qed.

Lemma dispatch_table_grows e s s' o r :
  dispatch e s = (s', o, r) -> exists tbl, wp_ss s' = wp_ss s ++ tbl.
Proof.
  destruct e as [msg|msg|d]; unfold dispatch; intros H.
  - destruct (pose_cb_frame _ _ _ _ _ H) as (_ & -> & _).
    exists []. now rewrite app_nil_r.
  - destruct (waypoints_cb_cases msg s)
      as [[_ E]|[(_ & _ & E)|(_ & _ & tbl & a & r1 & E & _)]];
      rewrite E in H; injection H as <- _ _.
    + exists []. now rewrite app_nil_r.
    + exists []. cbn [wp_ss set_wps]. now rewrite app_nil_r.
    + now exists tbl.
  - pose proof (traffic_cb_keeps_node s d) as Hk. rewrite H in Hk.
    simpl in Hk. subst s'. exists []. now rewrite app_nil_r.
Qed.

Lemma spin_table_grows es :
  forall s, exists tbl, wp_ss (fst (spin es s)) = wp_ss s ++ tbl.
Proof.
  induction es as [|e es IH]; intros s.
  - exists []. simpl. now rewrite app_nil_r.
  - simpl. destruct (dispatch e s) as [[s1 o1] r] eqn:E.
    destruct (dispatch_table_grows _ _ _ _ _ E) as (t1 & H1).
    destruct (IH s1) as (t2 & H2).
    destruct (spin es s1) as [s2 o2]. simpl in *.
    exists (t1 ++ t2). now rewrite H2, H1, app_assoc.
Qed.

Lemma paired_app os1 os2 : paired os1 -> paired os2 -> paired (os1 ++ os2).
Proof.
  intros H1 H2. induction H1; simpl; [exact H2| |]; constructor; auto.
Qed.

Lemma dispatch_paired e s s' o r : dispatch e s = (s', o, r) -> paired o.
Proof.
  destruct e as [msg|msg|d]; unfold dispatch; intros H.
  - destruct (pose_cb_outputs _ _ _ _ _ H) as (_ & _ & _ & Ho).
    destruct Ho as [->|(nxt & Hn & _ & _ & ->)]; [constructor|].
    destruct (lookahead_spec _ _ Hn) as [Hlen _].
    constructor; [reflexivity| |lia|constructor].
    cbn [waypoints]. intros C. rewrite C in Hlen.
    change (len (@nil Waypoint)) with 0 in Hlen. lia.
  - destruct (waypoints_cb_cases msg s)
      as [[_ E]|[(_ & _ & E)|(_ & _ & tbl & a & r1 & E & _)]];
      rewrite E in H; injection H as _ <- _; constructor.
  - destruct (traffic_cb_cases s d) as (o1 & r1 & E & Ho).
    rewrite E in H. injection H as _ <- _.
    destruct Ho as [(_ & v & ->)|(_ & ->)]; repeat constructor.
Qed.

(** ** What a track load computes *)

Lemma arc_step_exact i acc s :
  wps s <> [] ->
  let pt := point_at (wps s) (i mod len (wps s)) in
  let v := (fst acc + PrimFloat.sqrt (point_dist_sq (snd acc) pt))%float in
  arc_step i acc s = (set_wp_ss (wp_ss s ++ [v]) s, [], Ret (v, pt)).
Proof.
  intros Hne pt v. unfold arc_step. quiet.
  assert (Hn : 0 < len (wps s)).
  { pose proof (len_nonneg (wps s)). pose proof (len_nil_iff (wps s)).
    destruct (Z.eq_dec (len (wps s)) 0); [tauto|lia]. }
  destruct (py_index_inside (wps s) (i mod len (wps s))) as (w & E & _);
    [apply Z.mod_pos_bound; exact Hn|].
  subst v pt. rewrite (point_at_index _ _ _ E). rewrite E.
  quiet. rewrite point_dist_returns. quiet. quiet. reflexivity.
Qed.

Lemma arc_loop_exact l :
  forall acc s,
    wps s <> [] ->
    exists acc',
      for_loop l arc_step acc s =
        (set_wp_ss
           (wp_ss s ++
            path_lengths (snd acc) (fst acc)
              (map (fun i => point_at (wps s) (i mod len (wps s))) l)) s,
         [], Ret acc').
Proof.
  induction l as [|i l IH]; intros acc s Hne.
  - exists acc. simpl. unfold ret. rewrite app_nil_r. destruct s; reflexivity.
  - simpl. rewrite (bind_quiet _ _ _ _ _ (arc_step_exact i acc s Hne)).
    destruct (IH ((fst acc + PrimFloat.sqrt
                     (point_dist_sq (snd acc)
                        (point_at (wps s) (i mod len (wps s)))))%float,
                  point_at (wps s) (i mod len (wps s)))
                (set_wp_ss (wp_ss s ++ [(fst acc + PrimFloat.sqrt
                     (point_dist_sq (snd acc)
                        (point_at (wps s) (i mod len (wps s)))))%float]) s)
                Hne) as (acc' & E).
    exists acc'. rewrite E. unfold set_wp_ss. cbn [wps wp_ss fst snd].
    rewrite <- app_assoc. reflexivity.
Qed.

Lemma points_of_range ws :
  map (fun i => point_at ws (i mod len ws)) (py_range 0 (len ws)) =
  map waypoint_to_point ws.
Proof.
  apply nth_error_ext. intros k.
  rewrite !nth_error_map.
  destruct (Nat.lt_ge_cases k (length ws)) as [Hlt|Hge].
  - replace k with (Z.to_nat (Z.of_nat k)) at 1 by lia.
    rewrite py_range_nth by (unfold len; lia). cbn [option_map].
    rewrite Z.add_0_l.
    assert (Hk : 0 <= Z.of_nat k < len ws) by (unfold len; lia).
    rewrite Z.mod_small by exact Hk.
    destruct (py_index_inside ws (Z.of_nat k) Hk) as (w & E & Hn).
    rewrite Nat2Z.id in Hn. rewrite Hn. cbn [option_map].
    now rewrite (point_at_index _ _ _ E).
  - rewrite (proj2 (nth_error_None ws k)) by exact Hge.
    rewrite (proj2 (nth_error_None (py_range 0 (len ws)) k)); [reflexivity|].
    pose proof (len_py_range 0 (len ws)) as Hl. unfold len in *. lia.
Qed.

Lemma points_of_closed_range ws w0 ws' :
  ws = w0 :: ws' ->
  map (fun i => point_at ws (i mod len ws)) (py_range 0 (len ws + 1)) =
  map waypoint_to_point ws ++ [waypoint_to_point w0].
Proof.
  intros E. rewrite py_range_snoc by apply len_nonneg.
  rewrite map_app, points_of_range. f_equal. cbn [map].
  rewrite Z.mod_same by (rewrite E; unfold len; simpl; lia).
  rewrite E. reflexivity.
Qed.

Lemma avg_step_exact i s a :
  avg_wp_dist s = Some a ->
  1 <= i < len (wps s) ->
  avg_step i tt s =
    (set_avg_wp_dist
       (a + PrimFloat.sqrt
              (point_dist_sq (point_at (wps s) i) (point_at (wps s) (i - 1))))
       s, [], Ret tt).
Proof.
  intros Ha Hi. unfold avg_step. quiet.
  destruct (py_index_inside (wps s) i) as (w & E & _); [lia|].
  destruct (py_index_inside (wps s) (i - 1)) as (w' & E' & _); [lia|].
  rewrite (point_at_index _ _ _ E), (point_at_index _ _ _ E').
  rewrite E. quiet. rewrite E'. quiet.
  rewrite point_dist_returns. quiet. quiet. rewrite Ha. reflexivity.
Qed.

Lemma avg_loop_exact l :
  forall s a,
    avg_wp_dist s = Some a ->
    (forall i, In i l -> 1 <= i < len (wps s)) ->
    for_loop l avg_step tt s =
      (set_avg_wp_dist
         (fold_left
            (fun acc i =>
               (acc + PrimFloat.sqrt
                        (point_dist_sq (point_at (wps s) i)
                           (point_at (wps s) (i - 1))))%float) l a) s,
       [], Ret tt).
Proof.
  induction l as [|i l IH]; intros s a Ha Hl.
  - simpl. unfold ret, set_avg_wp_dist. rewrite <- Ha.
    destruct s; reflexivity.
  - simpl.
    rewrite (bind_quiet _ _ _ _ _
               (avg_step_exact i s a Ha (Hl i (or_introl eq_refl)))).
    set (a1 := (a + _)%float).
    rewrite (IH (set_avg_wp_dist a1 s) a1 eq_refl)
      by (intros k Hk; apply Hl; now right).
    reflexivity.
Qed.

Lemma point_at_middle front w rest :
  point_at (front ++ w :: rest) (len front) = waypoint_to_point w.
Proof.
  apply point_at_index. unfold py_index. cbv zeta.
  destruct (Z.ltb_spec (len front) 0) as [C|_];
    [pose proof (len_nonneg front); lia|].
  destruct (Z.ltb_spec (len front) 0) as [C|_];
    [pose proof (len_nonneg front); lia|].
  unfold len. rewrite Nat2Z.id, nth_error_app2 by lia.
  now rewrite Nat.sub_diag.
Qed.

Lemma gaps_of_range rest :
  forall front w acc,
    fold_left
      (fun a i =>
         (a + PrimFloat.sqrt
                (point_dist_sq (point_at (front ++ w :: rest) i)
                   (point_at (front ++ w :: rest) (i - 1))))%float)
      (py_range (len front + 1) (len front + 1 + len rest)) acc =
    gap_sum acc (waypoint_to_point w) (map waypoint_to_point rest).
Proof.
  induction rest as [|w' rest IH]; intros front w acc.
  - rewrite py_range_empty by (unfold len; simpl; lia). reflexivity.
  - assert (Hf : len (front ++ [w]) = len front + 1)
      by (unfold len; rewrite length_app; simpl; lia).
    assert (Hr : len (w' :: rest) = len rest + 1)
      by (unfold len; simpl; lia).
    pose proof (len_nonneg rest) as Hn.
    rewrite py_range_cons by lia.
    cbn [fold_left map gap_sum].
    replace (len front + 1 - 1) with (len front) by lia.
    rewrite point_at_middle.
    replace (front ++ w :: w' :: rest) with ((front ++ [w]) ++ w' :: rest)
      by (now rewrite <- app_assoc).
    replace (len front + 1 + 1) with (len (front ++ [w]) + 1) by lia.
    replace (len front + 1 + len (w' :: rest))
      with (len (front ++ [w]) + 1 + len rest) by lia.
    rewrite <- Hf at 1. rewrite point_at_middle.
    apply IH.
Qed.

Lemma waypoints_cb_ingests msg s w0 rest :
  len (waypoints msg) <> len (wps s) ->
  waypoints msg = w0 :: rest ->
  let total :=
    gap_sum 0 (waypoint_to_point w0) (map waypoint_to_point rest) in
  let k := float_of_int (len (waypoints msg) - 1) in
  waypoints_cb msg s =
    (mkNode (waypoints msg) (wp_ss s ++ loop_lengths (waypoints msg))
       (prev_pt s) (prev_index s) (next_pt s)
       (Some (if PrimFloat.eqb k 0 then total else (total / k)%float)),
     [],
     if PrimFloat.eqb k 0 then Raise ZeroDivisionError else Ret tt).
Proof.
  intros Hd Ew total k. unfold waypoints_cb. quiet.
  destruct (Z.eqb_spec (len (waypoints msg)) (len (wps s))) as [C|_];
    [contradiction|].
  quiet. quiet. cbn [wps set_wps].
  assert (Hne : waypoints msg <> []) by (rewrite Ew; discriminate).
  assert (E0 : py_index (waypoints msg) 0 = Ret w0)
    by (rewrite Ew; reflexivity).
  rewrite E0. quiet.
  destruct (arc_loop_exact (py_range 0 (len (waypoints msg) + 1))
              (0%float, waypoint_to_point w0) (set_wps (waypoints msg) s) Hne)
    as (acc' & E).
  cbn [wps set_wps fst snd] in E.
  rewrite (points_of_closed_range _ _ _ Ew) in E.
  rewrite (bind_quiet _ _ _ _ _ E). quiet.
  erewrite (bind_quiet (for_loop _ avg_step tt));
    [|apply avg_loop_exact;
      [reflexivity|intros i Hi; apply py_range_In in Hi; exact Hi]].
  quiet. cbn [avg_wp_dist set_avg_wp_dist wps set_wp_ss set_wps wp_ss].
  assert (Hg :
    fold_left
      (fun acc i =>
         (acc + PrimFloat.sqrt
                  (point_dist_sq (point_at (waypoints msg) i)
                     (point_at (waypoints msg) (i - 1))))%float)
      (py_range 1 (len (waypoints msg))) 0%float = total).
  { rewrite Ew. pose proof (gaps_of_range rest [] w0 0%float) as G.
    cbn [app] in G. change (len (@nil Waypoint)) with 0 in G.
    replace (len (w0 :: rest)) with (0 + 1 + len rest)
      by (unfold len; cbn [length]; lia).
    exact G. }
  rewrite Hg. fold k. unfold py_div.
  assert (Hl : loop_lengths (waypoints msg) =
               path_lengths (waypoint_to_point w0) 0
                 (map waypoint_to_point (waypoints msg) ++
                  [waypoint_to_point w0])).
  { unfold loop_lengths. rewrite Ew. reflexivity. }
  rewrite Hl.
  destruct (PrimFloat.eqb k 0); reflexivity.
Qed.

Lemma dispatch_measured e s s' o r :
  measured s -> dispatch e s = (s', o, r) -> measured s'.
Proof.
  intros [Ht Ha]. destruct e as [msg|msg|d]; unfold dispatch; intros H.
  - destruct (pose_cb_frame _ _ _ _ _ H) as (_ & Hs & Hv).
    split; [now rewrite Hs|now rewrite Hv].
  - destruct (waypoints_cb_cases msg s)
      as [[_ E]|[(_ & _ & E)|(D & Hne & _)]].
    + rewrite E in H. injection H as <- _ _. now split.
    + rewrite E in H. injection H as <- _ _. now split.
    + destruct (waypoints msg) as [|w0 rest] eqn:Ew; [contradiction|].
      rewrite (waypoints_cb_ingests msg s w0 rest) in H
        by (rewrite ?Ew; auto).
      injection H as <- _ _. split; cbn [wp_ss avg_wp_dist].
      * apply Forall_app. split; [exact Ht|].
        apply loop_lengths_not_negative.
      * intros a Hs. injection Hs as <-.
        assert (Hg : not_negative
                       (Prim2SF (gap_sum 0 (waypoint_to_point w0)
                                   (map waypoint_to_point rest))))
          by (apply gap_sum_not_negative; exact I).
        destruct (PrimFloat.eqb _ 0); [exact Hg|].
        rewrite FloatAxioms.div_spec. apply SFdiv_not_negative; [exact Hg|].
        apply float_of_int_plus_signed. rewrite Ew.
        unfold len. cbn [length]. lia.
  - pose proof (traffic_cb_keeps_node s d) as Hk. rewrite H in Hk.
    simpl in Hk. subst s'. now split.
Qed.

Lemma spin_measured es :
  forall s, measured s -> measured (fst (spin es s)).
Proof.
  induction es as [|e es IH]; intros s Hs; [exact Hs|].
  simpl. destruct (dispatch e s) as [[s1 o1] r] eqn:E.
  pose proof (IH s1 (dispatch_measured _ _ _ _ _ Hs E)) as H.
  destruct (spin es s1) as [s2 o2]. exact H.
Qed.

(** ** Examples *)

(** Four waypoints on the corners of the unit square: the average
    spacing is exactly 1.0 (three unit gaps, the closing gap left out),
    and the arc-length table is 0, 1, 2, 3, 4. *)
Example unit_square_spacing :
  avg_wp_dist (after [TrackEvent unit_square]) = Some 1%float /\
  wp_ss (after [TrackEvent unit_square]) = [0; 1; 2; 3; 4]%float.
Proof. split; vm_compute; reflexivity. Qed.

(** Five collinear waypoints one unit apart, no sticky index: for a
    position 0.1 past the waypoint of index 2, [nearest_waypoint] returns
    2, which becomes the sticky index. *)
Example nearest_waypoint_unbounded_example :
  prev_index (after [TrackEvent line5]) = -1 /\
  nearest_waypoint (pose_on_x f2_1) (after [TrackEvent line5]) =
    (set_prev_pt (mkPoint f2_1 0 0)
       (set_prev_index 2 (after [TrackEvent line5])), [], Ret 2).
Proof. split; vm_compute; reflexivity. Qed.

(** ** The properties *)

(** X1.  What a track-load event can do, from any state: it publishes
    nothing and leaves the tracker (last position, sticky index, next
    index) alone; the table keeps what it held; a lane with as many
    waypoints as the held track changes nothing at all, any other lane
    becomes the held track; and the callback returns or raises
    [IndexError] (empty lane) or [ZeroDivisionError] (final division). *)
Theorem waypoints_cb_outcome msg s :
  exists s' r,
    waypoints_cb msg s = (s', [], r) /\
    prev_pt s' = prev_pt s /\ prev_index s' = prev_index s /\
    next_pt s' = next_pt s /\
    (exists tbl, wp_ss s' = wp_ss s ++ tbl) /\
    (len (waypoints msg) = len (wps s) -> s' = s /\ r = Ret tt) /\
    (len (waypoints msg) <> len (wps s) -> wps s' = waypoints msg) /\
    (r = Ret tt \/ r = Raise IndexError \/ r = Raise ZeroDivisionError).
Proof.
  destruct (waypoints_cb_cases msg s)
    as [[E H]|[(D & Hn & H)|(D & Hn & tbl & a & r & H & Hl & Hr)]];
    rewrite H.
  - exists s, (Ret tt). split; [reflexivity|].
    repeat split; try tauto. exists []. now rewrite app_nil_r.
  - eexists. eexists. split; [reflexivity|]. cbn.
    repeat split; try tauto; try (now rewrite Hn).
    exists []. now rewrite app_nil_r.
  - eexists. exists r. split; [reflexivity|]. cbn.
    repeat split; try tauto. now exists tbl.
Qed.

(** X2.  [next_waypoint] publishes nothing and leaves the track, the
    arc-length table, the average spacing and the last next index as they
    are; what it returns is -1 or an index of the track. *)
Theorem next_waypoint_frame st p s1 o r :
  next_waypoint p st = (s1, o, r) ->
  o = [] /\ wps s1 = wps st /\ wp_ss s1 = wp_ss st /\
  next_pt s1 = next_pt st /\ avg_wp_dist s1 = avg_wp_dist st /\
  (forall v, r = Ret v -> v = -1 \/ 0 <= v < len (wps st)).
Proof.
  intros H.
  destruct (tracker_only_next_waypoint p _ _ _ _ H) as (? & ? & ? & ? & ?).
  repeat (split; [assumption|]).
  intros v ->. exact (next_waypoint_result _ _ _ _ _ H).
Qed.

(** X2, witness: the closed track of three waypoints and a pose at
    x = 1.6. *)
Lemma next_waypoint_frame_witness :
  next_waypoint (pose_on_x f1_6) (after [TrackEvent line3]) =
    (set_prev_pt (mkPoint f1_6 0 0) (after [TrackEvent line3]), [], Ret 0) /\
  forall v, Ret 0 = Ret v -> v = -1 \/ 0 <= v < 3.
Proof.
  assert (H : next_waypoint (pose_on_x f1_6) (after [TrackEvent line3]) =
    (set_prev_pt (mkPoint f1_6 0 0) (after [TrackEvent line3]), [], Ret 0))
    by (vm_compute; reflexivity).
  split; [exact H|].
  exact (proj2 (proj2 (proj2 (proj2 (proj2
           (next_waypoint_frame _ _ _ _ _ H)))))).
Defined.

(** X3.  The arc-length table only ever grows: whatever events follow,
    what the node has written to the table stays at its index. *)
Theorem table_only_grows es1 es2 :
  exists tbl, wp_ss (after (es1 ++ es2)) = wp_ss (after es1) ++ tbl.
Proof.
  unfold after. rewrite spin_app. cbn [fst]. apply spin_table_grows.
Qed.

(** X4.  Of equally near waypoints [nearest_waypoint] returns the one of
    lowest index: no waypoint of the searched range before the returned
    one is at the same distance. *)
Theorem nearest_waypoint_lowest_index st p avg s' o m :
  avg_wp_dist st = Some avg ->
  nearest_waypoint p st = (s', o, Ret m) ->
  let ppt := pose_to_point p in
  let sticky := if jumped avg ppt (prev_pt st) then -1 else prev_index st in
  let lo := if sticky >? -1 then Z.max 0 (sticky - 5) else 0 in
  forall j, lo <= j < m ->
    PrimFloat.eqb (dist_sq_at (wps st) ppt j) (dist_sq_at (wps st) ppt m)
      = false.
Proof.
  intros Havg H ppt sticky lo j Hj.
  pose proof (nearest_waypoint_run st p avg Havg) as Hrun.
  pose proof (nearest_waypoint_nothing st p avg Havg) as Hnone.
  cbv zeta in Hrun, Hnone. fold ppt sticky lo in Hrun, Hnone.
  set (hi := if sticky >? -1 then Z.min (len (wps st)) (sticky + 200 + 1)
             else len (wps st)) in *.
  pose proof (len_nonneg (wps st)) as Hlen.
  assert (Hlo : 0 <= lo) by (subst lo; destruct (sticky >? -1); lia).
  assert (Hhi : hi <= len (wps st))
    by (subst hi; destruct (sticky >? -1); lia).
  destruct (Z_lt_ge_dec lo hi) as [Hlt|Hge].
  - destruct (Hrun Hlt) as (mini & _ & Es & E).
    rewrite E in H. assert (mini = m) by congruence. subst mini.
    exact (nearest_scan_range_first _ _ _ _ _ _ Hlo Hhi Es j Hj).
  - rewrite (Hnone ltac:(lia)) in H. discriminate.
Qed.

(** X4, witness: three waypoints at x = 0, 1, 2 and a pose at x = 1.5,
    as near to index 1 as to index 2: index 1 is returned. *)
Lemma nearest_waypoint_lowest_index_witness :
  avg_wp_dist (after [TrackEvent line3]) = Some 1%float /\
  nearest_waypoint (pose_on_x 1.5) (after [TrackEvent line3]) =
    (mkNode (waypoints line3) (wp_ss (after [TrackEvent line3]))
       (mkPoint 1.5 0 0) 1 (-1) (Some 1%float), [], Ret 1) /\
  forall j, 0 <= j < 1 ->
    PrimFloat.eqb
      (dist_sq_at (wps (after [TrackEvent line3])) (mkPoint 1.5 0 0) j)
      (dist_sq_at (wps (after [TrackEvent line3])) (mkPoint 1.5 0 0) 1)
      = false.
Proof.
  split; [vm_compute; reflexivity|]. split; [vm_compute; reflexivity|].
  exact (nearest_waypoint_lowest_index (after [TrackEvent line3])
           (pose_on_x 1.5) 1%float _ _ 1
           ltac:(vm_compute; reflexivity) ltac:(vm_compute; reflexivity)).
Defined.

(** X5.  [line_ratio] never fails in [math.sqrt]: a sum of squares is not
    negative.  It raises [ZeroDivisionError] exactly when the distance
    from [a] to [c] is zero, and otherwise returns the dot product of
    [ab] and [ac] divided by that distance. *)
Theorem line_ratio_outcome a b c :
  line_ratio a b c =
    if PrimFloat.eqb (PrimFloat.sqrt (point_dist_sq a c)) 0
    then Raise ZeroDivisionError
    else Ret (dot_prod (waypoints_to_vec a b) (waypoints_to_vec a c) /
              PrimFloat.sqrt (point_dist_sq a c))%float.
Proof. unfold line_ratio. rewrite point_dist_returns. reflexivity. Qed.

(** X6.  Whatever events the node has served, if it holds a track then
    the average spacing is set and the arc-length table reaches the index
    [len(self.wps)]; so [nearest_waypoint] finds [self.avg_wp_dist] and
    [traffic_cb] finds [self.wp_ss[sz]]. *)
Theorem after_consistent es :
  wps (after es) <> [] ->
  (exists a, avg_wp_dist (after es) = Some a) /\
  len (wps (after es)) < len (wp_ss (after es)).
Proof.
  apply (spin_consistent es init). intros C. now contradiction C.
Qed.

(** X6, witness: a track of three waypoints, a pose and a second track of
    four. *)
Lemma after_consistent_witness :
  wps (after [TrackEvent line3; PoseEvent (pose_on_x 1); TrackEvent line4])
    <> [] /\
  (exists a,
     avg_wp_dist
       (after [TrackEvent line3; PoseEvent (pose_on_x 1); TrackEvent line4]) =
     Some a) /\
  len (wps (after [TrackEvent line3; PoseEvent (pose_on_x 1);
                   TrackEvent line4])) <
  len (wp_ss (after [TrackEvent line3; PoseEvent (pose_on_x 1);
                     TrackEvent line4])).
Proof.
  assert (H : wps (after [TrackEvent line3; PoseEvent (pose_on_x 1);
                          TrackEvent line4]) <> [])
    by (vm_compute; discriminate).
  exact (conj H (after_consistent _ H)).
Defined.



(** X8.  In every run of the node, a traffic-light event whose decoded
    magnitude and the last next-waypoint index are both indices of the
    held track publishes sign * dist, with dist the difference of the two
    table entries plus the entry of index [len(self.wps)] when that
    difference is negative. *)
Theorem traffic_cb_on_track es d :
  Z.abs d < len (wps (after es)) ->
  0 <= next_pt (after es) < len (wps (after es)) ->
  let st := after es in
  let arc i := nth (Z.to_nat i) (wp_ss st) 0%float in
  let raw := (arc (Z.abs d) - arc (next_pt st))%float in
  let dist :=
    if PrimFloat.ltb raw 0 then (raw + arc (len (wps st)))%float else raw in
  traffic_cb d st = (st, [TlDistance (sign_of d * dist)%float], Ret tt).
Proof.
  intros Hm Hn st.
  assert (Hc : consistent st)
    by (apply (spin_consistent es init); intros C; now contradiction C).
  destruct Hc as [_ Hs].
  { intros C. apply len_nil_iff in C. fold st in Hn. lia. }
  apply traffic_cb_run; fold st in Hm, Hn; lia.
Qed.

(** X8, witness: three waypoints, the vehicle located at index 1, and a
    red light at index 2: the distance is 2 - 1 = 1. *)
Lemma traffic_cb_on_track_witness :
  Z.abs 2 < len (wps (after [TrackEvent line3; PoseEvent (pose_on_x 1)])) /\
  0 <= next_pt (after [TrackEvent line3; PoseEvent (pose_on_x 1)]) <
    len (wps (after [TrackEvent line3; PoseEvent (pose_on_x 1)])) /\
  traffic_cb 2 (after [TrackEvent line3; PoseEvent (pose_on_x 1)]) =
    (after [TrackEvent line3; PoseEvent (pose_on_x 1)], [TlDistance 1],
     Ret tt).
Proof.
  assert (H1 : Z.abs 2 <
               len (wps (after [TrackEvent line3; PoseEvent (pose_on_x 1)])))
    by (vm_compute; reflexivity).
  assert (H2 : 0 <= next_pt (after [TrackEvent line3; PoseEvent (pose_on_x 1)])
               < len (wps (after [TrackEvent line3; PoseEvent (pose_on_x 1)])))
    by (vm_compute; split; [discriminate|reflexivity]).
  split; [exact H1|]. split; [exact H2|].
  exact (traffic_cb_on_track _ 2 H1 H2).
Defined.

(** X9.  What a pose event can do, from any state: it never touches the
    track, the table or the average spacing; it publishes nothing, or one
    lane followed by one index.  The index is a valid index of the track
    and is recorded in [next_pt]; the lane is in the world frame, holds
    between 1 and 240 waypoints, all of the track, and starts with the
    waypoint of that index. *)
Theorem pose_cb_publishes msg s :
  exists s' o r,
    pose_cb msg s = (s', o, r) /\
    wps s' = wps s /\ wp_ss s' = wp_ss s /\ avg_wp_dist s' = avg_wp_dist s /\
    (o = [] \/
     exists nxt lane,
       o = [FinalWaypoints lane; NextWaypoint nxt] /\
       r = Ret tt /\ next_pt s' = nxt /\ 0 <= nxt < len (wps s) /\
       frame_id lane = "/world"%string /\
       0 < len (waypoints lane) <= 240 /\
       nth_error (waypoints lane) 0 = nth_error (wps s) (Z.to_nat nxt) /\
       forall w, In w (waypoints lane) -> In w (wps s)).
Proof.
  destruct (pose_cb msg s) as [[s' o] r] eqn:E. exists s', o, r.
  split; [reflexivity|].
  destruct (pose_cb_outputs _ _ _ _ _ E) as (Hw & Hs & Ha & Ho).
  repeat (split; [assumption|]).
  destruct Ho as [->|(nxt & Hn & -> & Hnp & ->)]; [now left|right].
  exists nxt. eexists. split; [reflexivity|]. cbn [frame_id waypoints].
  destruct (lookahead_within _ _ Hn) as [Hl Hin].
  destruct (lookahead_spec _ _ Hn) as [Hlen Hnth].
  repeat split; try assumption; try lia.
  change 0%nat with (Z.to_nat 0).
  rewrite (Hnth 0) by lia. rewrite Z.add_0_r, Z.mod_small by lia.
  reflexivity.
Qed.

(** X10.  In any run, a pose event returns, or raises [IndexError]
    because the sticky index lies at least 5 beyond the end of the held
    track, or raises [ZeroDivisionError]; when it raises it has published
    nothing. *)
Theorem pose_event_outcome es msg :
  exists s' o r,
    pose_cb msg (after es) = (s', o, r) /\
    (r = Ret tt \/
     (o = [] /\ r = Raise IndexError /\
      len (wps (after es)) + 5 <= prev_index (after es)) \/
     (o = [] /\ r = Raise ZeroDivisionError)).
Proof.
  set (st := after es).
  assert (Hc : consistent st)
    by (apply (spin_consistent es init); intros C; now contradiction C).
  destruct (wps st) as [|w ws] eqn:Ew.
  - exists st, [], (Ret tt). split; [|now left].
    unfold pose_cb. quiet. rewrite Ew. reflexivity.
  - destruct Hc as [(avg & Havg) _]; [rewrite Ew; discriminate|].
    destruct (pose_cb_on_track msg st avg) as (s' & o & r & E & _ & _ & Hr);
      [rewrite Ew; discriminate|exact Havg|].
    exists s', o, r. split; [exact E|]. rewrite <- Ew.
    destruct Hr as [Hr|[(Ho & Hr & _ & Hs)|Hr]]; auto.
    right; left. repeat split; try assumption.
    assert (0 < len (wps st)) by (rewrite Ew; unfold len; simpl; lia).
    lia.
Qed.

(** X11.  With one track for the node's lifetime, a pose event never
    raises [IndexError]: it returns, or it raises [ZeroDivisionError] in
    [line_ratio] and publishes nothing. *)
Theorem pose_event_on_fixed_track track es msg :
  waypoints track <> [] ->
  Forall (keeps_track (len (waypoints track))) es ->
  exists s' o r,
    pose_cb msg (after (TrackEvent track :: es)) = (s', o, r) /\
    wps s' = waypoints track /\
    (r = Ret tt \/ (o = [] /\ r = Raise ZeroDivisionError)).
Proof.
  intros Hne Hes. unfold after. cbn [spin dispatch].
  destruct (waypoints_cb_cases track init)
    as [[E _]|[(_ & C & _)|(_ & _ & tbl & a & r0 & E & _)]].
  - apply len_nil_iff in E. contradiction.
  - contradiction.
  - rewrite E. cbn [init prev_pt prev_index next_pt wp_ss].
    set (s0 := mkNode _ _ _ _ _ _).
    assert (H0 : on_track (waypoints track) s0).
    { split; [reflexivity|]. split; [|now exists a].
      cbn [prev_index s0]. pose proof (len_nonneg (waypoints track)). lia. }
    pose proof (spin_on_track _ es Hne Hes s0 H0) as (Hw & Hp & a' & Ha).
    destruct (spin es s0) as [s2 o2]. cbn [fst] in *.
    destruct (pose_cb_on_track msg s2 a') as (s' & o & r & E' & _ & _ & Hr);
      [now rewrite Hw|exact Ha|].
    exists s', o, r. split; [exact E'|].
    split; [destruct (pose_cb_frame _ _ _ _ _ E') as (-> & _); exact Hw|].
    destruct Hr as [Hr|[(_ & _ & _ & Hs)|Hr]]; auto.
    rewrite Hw in Hs. pose proof (len_nonneg (waypoints track)).
    assert (0 < len (waypoints track)).
    { pose proof (len_nil_iff (waypoints track)).
      destruct (Z.eq_dec (len (waypoints track)) 0); [tauto|lia]. }
    lia.
Qed.

(** X11, witness: three waypoints, then a pose, a traffic light and the
    same lane again. *)
Lemma pose_event_on_fixed_track_witness :
  waypoints line3 <> [] /\
  Forall (keeps_track (len (waypoints line3)))
    [PoseEvent (pose_on_x 0.5); TrafficEvent 1; TrackEvent line3] /\
  exists s' o r,
    pose_cb (pose_on_x 1.5)
      (after (TrackEvent line3 ::
              [PoseEvent (pose_on_x 0.5); TrafficEvent 1; TrackEvent line3]))
      = (s', o, r) /\
    wps s' = waypoints line3 /\
    (r = Ret tt \/ (o = [] /\ r = Raise ZeroDivisionError)).
Proof.
  assert (Hne : waypoints line3 <> []) by discriminate.
  assert (Hes : Forall (keeps_track (len (waypoints line3)))
                  [PoseEvent (pose_on_x 0.5); TrafficEvent 1;
                   TrackEvent line3])
    by (repeat constructor).
  split; [exact Hne|]. split; [exact Hes|].
  exact (pose_event_on_fixed_track line3 _ (pose_on_x 1.5) Hne Hes).
Defined.

(** X12.  A pose event that raises [IndexError] is not followed by
    another: the failed search has unset the sticky index, so the next
    pose searches the whole track. *)
Theorem stale_index_fails_once es msg1 msg2 :
  snd (pose_cb msg1 (after es)) = Raise IndexError ->
  snd (pose_cb msg2 (after (es ++ [PoseEvent msg1]))) <> Raise IndexError.
Proof.
  intros H1. rewrite after_snoc. cbn [dispatch].
  set (st := after es) in *.
  assert (Hc : consistent st)
    by (apply (spin_consistent es init); intros C; now contradiction C).
  destruct (wps st) as [|w ws] eqn:Ew.
  - exfalso. revert H1. unfold pose_cb. quiet. rewrite Ew. discriminate.
  - destruct Hc as [(avg & Havg) _]; [rewrite Ew; discriminate|].
    destruct (pose_cb_on_track msg1 st avg) as (s1 & o & r & E & _ & _ & Hr);
      [rewrite Ew; discriminate|exact Havg|].
    rewrite E in *. cbn [fst snd] in *. subst r.
    destruct Hr as [Hr|[(_ & _ & Hm & _)|(_ & Hr)]]; try discriminate.
    destruct (pose_cb_frame _ _ _ _ _ E) as (Hw & _ & Ha).
    destruct (pose_cb_on_track msg2 s1 avg) as (s2 & o2 & r2 & E2 & _ & _ & Hr);
      [rewrite Hw, Ew; discriminate|congruence|].
    rewrite E2. cbn [snd].
    destruct Hr as [->|[(_ & _ & _ & Hs)|(_ & ->)]]; try discriminate.
    exfalso. rewrite Hm, Hw, Ew in Hs. unfold len in Hs. cbn [length] in Hs.
    lia.
Qed.

(** X12, witness: the vehicle located at index 250 of 300 waypoints, then
    a track of 100: the next pose raises, the one after does not. *)
Lemma stale_index_fails_once_witness :
  snd (pose_cb (pose_on_x 250)
         (after [TrackEvent (line 300); PoseEvent (pose_on_x 250);
                 TrackEvent (line 100)])) = Raise IndexError /\
  snd (pose_cb (pose_on_x 50)
         (after ([TrackEvent (line 300); PoseEvent (pose_on_x 250);
                  TrackEvent (line 100)] ++ [PoseEvent (pose_on_x 250)])))
    <> Raise IndexError.
Proof.
  split; [vm_compute; reflexivity|].
  apply stale_index_fails_once. vm_compute. reflexivity.
Defined.

(** X13.  In any run, no arc length of the table and no average spacing
    is below zero. *)
Theorem lengths_never_negative es :
  (forall v, In v (wp_ss (after es)) -> PrimFloat.ltb v 0 = false) /\
  (forall a, avg_wp_dist (after es) = Some a -> PrimFloat.ltb a 0 = false).
Proof.
  assert (H0 : measured init) by (split; [constructor|discriminate]).
  destruct (spin_measured es init H0) as [Ht Ha]. fold (after es) in Ht, Ha.
  rewrite Forall_forall in Ht.
  split; intros v Hv; apply float_not_negative; auto.
Qed.

(** X14.  What a traffic-light event can do, from any state: it leaves
    the node as it is, and either publishes one distance and returns, or
    raises [IndexError] and publishes nothing; it raises only with a
    next-waypoint index that is not negative and with the decoded
    magnitude, that index or the track length beyond the last index of
    the arc-length table. *)
Theorem traffic_cb_outcome st d :
  exists o r,
    traffic_cb d st = (st, o, r) /\
    ((r = Ret tt /\ exists v, o = [TlDistance v]) \/
     (r = Raise IndexError /\ o = [] /\ 0 <= next_pt st /\
      (len (wp_ss st) <= Z.abs d \/ len (wp_ss st) <= next_pt st \/
       len (wp_ss st) <= len (wps st)))).
Proof.
  unfold traffic_cb, bind, get, lift, ret, publish.
  rewrite decoded_magnitude.
  destruct (Z.geb_spec (next_pt st) 0) as [Hn|_]; cbn [andb];
    [|eexists; eexists; split; [reflexivity|]; left;
      split; [reflexivity|]; eexists; reflexivity].
  destruct (Z.geb_spec (Z.abs d) 0) as [Hd|C]; [|lia].
  destruct (py_index (wp_ss st) (Z.abs d)) as [a|e] eqn:Ea.
  - destruct (py_index (wp_ss st) (next_pt st)) as [b|e] eqn:Eb.
    + destruct (PrimFloat.ltb _ _).
      * destruct (py_index (wp_ss st) (len (wps st))) as [l|e] eqn:El.
        -- eexists. eexists. split; [reflexivity|]. left.
           split; [reflexivity|]. eexists. reflexivity.
        -- destruct (py_index_raises_beyond _ _ _ (len_nonneg _) El)
             as [-> Hb].
           eexists. eexists. split; [reflexivity|]. right. auto 6.
      * eexists. eexists. split; [reflexivity|]. left.
        split; [reflexivity|]. eexists. reflexivity.
    + destruct (py_index_raises_beyond _ _ _ Hn Eb) as [-> Hb].
      eexists. eexists. split; [reflexivity|]. right. auto 6.
  - destruct (py_index_raises_beyond _ _ _ Hd Ea) as [-> Hb].
    eexists. eexists. split; [reflexivity|]. right. auto 6.
Qed.

(** X15.  Whatever the events and the state the node starts from, the
    messages it publishes form a paired stream: every lane is non-empty,
    in the world frame and followed at once by its non-negative index,
    and no index comes without its lane. *)
Theorem published_in_pairs es s : paired (snd (spin es s)).
Proof.
  revert s. induction es as [|e es IH]; intros s; [constructor|].
  simpl. destruct (dispatch e s) as [[s1 o1] r] eqn:E.
  specialize (IH s1). destruct (spin es s1) as [s2 o2]. cbn [snd] in *.
  apply paired_app; [exact (dispatch_paired _ _ _ _ _ E)|exact IH].
Qed.

(** X16.  Writing a velocity through a list of waypoints: an index of
    the list, counted from either end, reaches one object, which from
    then on reads the new velocity at its unchanged pose; every other
    object is as before.  Any other index raises [IndexError] and writes
    nothing. *)
Theorem set_waypoint_velocity_outcome ws i v h :
  exists h' r,
    set_waypoint_velocity ws i v h = (h', r) /\
    ((- len ws <= i < len ws /\ r = Ret tt /\
      exists ref,
        nth_error ws (Z.to_nat (i mod len ws)) = Some ref /\
        get_waypoint_velocity (h' ref) = v /\
        wp_pose (h' ref) = wp_pose (h ref) /\
        (forall ref', ref' <> ref -> h' ref' = h ref')) \/
     (~ (- len ws <= i < len ws) /\ r = Raise IndexError /\ h' = h)).
Proof.
  unfold set_waypoint_velocity.
  destruct (Z_le_dec (- len ws) i) as [Hl|Hl];
    [destruct (Z_lt_dec i (len ws)) as [Hu|Hu]|].
  - destruct (py_index_within ws i) as (ref & -> & Hn); [lia|].
    eexists. eexists. split; [reflexivity|]. left.
    split; [lia|]. split; [reflexivity|]. exists ref.
    split; [exact Hn|]. cbv beta. rewrite Nat.eqb_refl.
    repeat split.
    intros ref' Hne. destruct (Nat.eqb_spec ref' ref); [contradiction|].
    reflexivity.
  - rewrite py_index_outside by lia. eexists. eexists.
    split; [reflexivity|]. right. split; [lia|]. split; reflexivity.
  - rewrite py_index_outside by lia. eexists. eexists.
    split; [reflexivity|]. right. split; [lia|]. split; reflexivity.
Qed.
